(** * COF-CGCNN: crystal-graph construction and batch collation

    A shallow embedding of [mofcgcnn/data.py]: the batch collator
    [collate_pool], the Gaussian radial basis [GaussianDistance] and the
    sample builder [CIFData.__getitem__], with the properties of the
    specification stated over them.

    Conventions.
    - A tensor is its shape together with its entries in row-major order.
    - Entries of index tensors (torch.LongTensor) and Python integers are
      integers of [Z]; counts and lengths are natural numbers.
    - Python floats that the code only stores, compares and adds (bond
      distances, radii) are rationals of [Q]; floats that go through
      [np.exp] are real numbers of [R].
    - Exceptions are values of [exn]; a computation that may raise returns
      a [result]. *)

From Stdlib Require Import ZArith List Lia QArith Reals Qreals Lra String Sorted Permutation.
From stdpp Require Import base list gmap.

Local Open Scope Z_scope.

(** ** Exceptions and the error monad *)

Inductive exn : Type :=
| AssertionError
| IndexError
| RuntimeError
| ZeroDivisionError
| SystemExit (code : Z).

Inductive result (A : Type) : Type :=
| Ok (a : A)
| Raise (e : exn).

Arguments Ok {A} a.
Arguments Raise {A} e.

#[global] Instance result_bind : MBind result :=
  fun A B (k : A -> result B) (r : result A) =>
    match r with
    | Ok a => k a
    | Raise e => Raise e
    end.

(** ** Tensors *)

Module Tensor.

Record t (A : Type) : Type := mk { shape : list nat; data : list A }.

Arguments mk {A} shape data.
Arguments shape {A} _.
Arguments data {A} _.

(** Number of entries a shape holds. *)
Definition numel (sh : list nat) : nat := fold_right Nat.mul 1%nat sh.

(** The runtime's invariant: a tensor holds as many entries as its shape
    says. *)
Definition wf {A : Type} (x : t A) : Prop :=
  length (data x) = numel (shape x).

(** [x.shape[0]]; a zero-dimensional tensor has no first axis. *)
Definition shape0 {A : Type} (x : t A) : result nat :=
  match shape x with
  | [] => Raise IndexError
  | n :: _ => Ok n
  end.

(** [x + c] for an index tensor [x] and a Python integer [c]. *)
Definition add_scalar (x : t Z) (c : Z) : t Z :=
  mk (shape x) (map (fun v => v + c) (data x)).

(** [torch.LongTensor(np.arange(m) + c)]. *)
Definition arange_plus (m : nat) (c : Z) : t Z :=
  mk [m] (map (fun j => Z.of_nat j + c) (seq 0 m)).

Definition shape_eqb (s1 s2 : list nat) : bool :=
  bool_decide (s1 = s2).

(** [torch.cat] leaves out one-dimensional tensors of size (0,). *)
Definition legacy_empty {A : Type} (x : t A) : bool :=
  shape_eqb (shape x) [0%nat].

Definition keep {A : Type} (x : t A) : bool := negb (legacy_empty x).

(** Trailing sizes agree with [tl] and there is a first axis. *)
Definition same_trailing {A : Type} (tl : list nat) (x : t A) : bool :=
  match shape x with
  | [] => false
  | _ :: tl' => shape_eqb tl tl'
  end.

Definition heads {A : Type} (xs : list (t A)) : list nat :=
  map (fun x => hd 0%nat (shape x)) xs.

(** [torch.cat(xs, dim=0)]: the list must be non-empty and the tensors must
    agree on every axis but the first. *)
Definition cat {A : Type} (xs : list (t A)) : result (t A) :=
  match xs with
  | [] => Raise RuntimeError
  | _ :: _ =>
      match List.filter keep xs with
      | [] => Ok (mk [0%nat] [])
      | x :: rest =>
          match shape x with
          | [] => Raise RuntimeError
          | _ :: tl =>
              if forallb (same_trailing tl) rest
              then Ok (mk (sum_list (heads (x :: rest)) :: tl)
                          (concat (map data (x :: rest))))
              else Raise RuntimeError
          end
      end
  end.

(** [torch.stack(xs, dim=0)]: the list must be non-empty and the tensors
    must have one and the same shape. *)
Definition stack {A : Type} (xs : list (t A)) : result (t A) :=
  match xs with
  | [] => Raise RuntimeError
  | x :: rest =>
      if forallb (fun y => shape_eqb (shape x) (shape y)) rest
      then Ok (mk (length xs :: shape x) (concat (map data xs)))
      else Raise RuntimeError
  end.

End Tensor.

(** ** The batch collator: [collate_pool] *)

Module Collate.

Section WithFeatures.

(** The type of the entries of the float tensors, which the collator only
    moves around. *)
Context {F : Type}.

(** One element of [dataset_list]:
    [((atom_fea, nbr_fea, nbr_fea_idx, m1_index, m2_feature), target, cif_id)]. *)
Record Sample : Type := mkSample {
  atom_fea : Tensor.t F;
  nbr_fea : Tensor.t F;
  nbr_fea_idx : Tensor.t Z;
  m1_index : Tensor.t Z;
  m2_feature : Tensor.t F;
  target : Tensor.t F;
  cif_id : string
}.

(** The value [collate_pool] returns. *)
Record Batch : Type := mkBatch {
  out_atom_fea : Tensor.t F;
  out_nbr_fea : Tensor.t F;
  out_nbr_fea_idx : Tensor.t Z;
  out_m1_index : Tensor.t Z;
  out_crystal_atom_idx : list (Tensor.t Z);
  out_m2_fea : Tensor.t F;
  out_target : Tensor.t F;
  out_cif_ids : list string
}.

(** The local variables of [collate_pool]. *)
Record Locals : Type := mkLocals {
  batch_atom_fea : list (Tensor.t F);
  batch_nbr_fea : list (Tensor.t F);
  batch_nbr_fea_idx : list (Tensor.t Z);
  batch_m1_index : list (Tensor.t Z);
  crystal_atom_idx : list (Tensor.t Z);
  batch_target : list (Tensor.t F);
  batch_cif_ids : list string;
  batch_m2_fea : list (Tensor.t F);
  base_idx : Z;
  base_m1_idx : Z
}.

Definition init : Locals :=
  mkLocals [] [] [] [] [] [] [] [] 0 0.

(** One iteration of the loop. *)
Definition step (st : Locals) (s : Sample) : result Locals :=
  n_i ← Tensor.shape0 (atom_fea s);
  m1_i ← Tensor.shape0 (m1_index s);
  Ok (mkLocals
        (batch_atom_fea st ++ [atom_fea s])
        (batch_nbr_fea st ++ [nbr_fea s])
        (batch_nbr_fea_idx st ++ [Tensor.add_scalar (nbr_fea_idx s) (base_idx st)])
        (batch_m1_index st ++ [Tensor.add_scalar (m1_index s) (base_idx st)])
        (crystal_atom_idx st ++ [Tensor.arange_plus m1_i (base_m1_idx st)])
        (batch_target st ++ [target s])
        (batch_cif_ids st ++ [cif_id s])
        (batch_m2_fea st ++ [m2_feature s])
        (base_idx st + Z.of_nat n_i)
        (base_m1_idx st + Z.of_nat m1_i)).

Fixpoint loop (st : Locals) (dataset_list : list Sample) : result Locals :=
  match dataset_list with
  | [] => Ok st
  | s :: rest => st' ← step st s; loop st' rest
  end.

Definition collate_pool (dataset_list : list Sample) : result Batch :=
  st ← loop init dataset_list;
  a ← Tensor.cat (batch_atom_fea st);
  b ← Tensor.cat (batch_nbr_fea st);
  c ← Tensor.cat (batch_nbr_fea_idx st);
  d ← Tensor.cat (batch_m1_index st);
  e ← Tensor.stack (batch_m2_fea st);
  f ← Tensor.stack (batch_target st);
  Ok (mkBatch a b c d (crystal_atom_idx st) e f (batch_cif_ids st)).

(** *** Vocabulary of the specification *)

(** Number of atom rows of a sample, [atom_fea.shape[0]]. *)
Definition n_atoms (s : Sample) : nat := hd 0%nat (Tensor.shape (atom_fea s)).

(** Length of the primary index vector of a sample. *)
Definition n_primary (s : Sample) : nat := hd 0%nat (Tensor.shape (m1_index s)).

(** Cumulative atom offset of sample [k]: the atoms of the samples before it. *)
Definition atom_offset (ds : list Sample) (k : nat) : nat :=
  sum_list_with n_atoms (take k ds).

(** Cumulative offset of sample [k] on the primary-index axis. *)
Definition group_offset (ds : list Sample) (k : nat) : nat :=
  sum_list_with n_primary (take k ds).

(** Position in the flattened neighbor-index tensor where the entries of
    sample [k] start. *)
Definition nbr_start (ds : list Sample) (k : nat) : nat :=
  sum_list_with (fun s => length (Tensor.data (nbr_fea_idx s))) (take k ds).

(** The shapes the data model gives a sample: atom features (n, a),
    neighbor features (n, M, L), neighbor indices (n, M), a primary index
    vector, and auxiliary and target vectors of fixed lengths. *)
Record shaped (a M L q T : nat) (s : Sample) : Prop := {
  shaped_atom : Tensor.shape (atom_fea s) = [n_atoms s; a];
  shaped_nbr : Tensor.shape (nbr_fea s) = [n_atoms s; M; L];
  shaped_idx : Tensor.shape (nbr_fea_idx s) = [n_atoms s; M];
  shaped_m1 : Tensor.shape (m1_index s) = [n_primary s];
  shaped_m2 : Tensor.shape (m2_feature s) = [q];
  shaped_target : Tensor.shape (target s) = [T];
  shaped_idx_wf : Tensor.wf (nbr_fea_idx s);
  shaped_m1_wf : Tensor.wf (m1_index s)
}.

(** Every index of the sample refers to one of its own atoms. *)
Definition indices_local (s : Sample) : Prop :=
  Forall (fun x => 0 <= x < Z.of_nat (n_atoms s)) (Tensor.data (nbr_fea_idx s)) /\
  Forall (fun x => 0 <= x < Z.of_nat (n_atoms s)) (Tensor.data (m1_index s)).

(** The six tensors of the sample are tensors of the runtime. *)
Record all_wf (s : Sample) : Prop := {
  wf_atom_fea : Tensor.wf (atom_fea s);
  wf_nbr_fea : Tensor.wf (nbr_fea s);
  wf_nbr_fea_idx : Tensor.wf (nbr_fea_idx s);
  wf_m1_index : Tensor.wf (m1_index s);
  wf_m2_feature : Tensor.wf (m2_feature s);
  wf_target : Tensor.wf (target s)
}.

(** The sample has a tensor without a first axis where the loop reads
    [shape[0]]. *)
Definition no_first_axis (s : Sample) : Prop :=
  Tensor.shape (atom_fea s) = [] \/ Tensor.shape (m1_index s) = [].

End WithFeatures.

Arguments Sample F : clear implicits.
Arguments Batch F : clear implicits.
Arguments Locals F : clear implicits.

End Collate.

(** ** The Gaussian radial basis: [GaussianDistance] *)

Module GaussianDistance.

Local Open Scope R_scope.

(** A float the array runtime can hold: a real number, an infinity, or
    not-a-number. *)
Inductive xreal : Type :=
| Fin (r : R)
| PInf
| NInf
| NaN.

(** Array division [a / b] of two finite floats: dividing by zero gives
    not-a-number or an infinity, and raises nothing. *)
Definition np_div (a b : R) : xreal :=
  if Req_dec_T b 0 then
    if Req_dec_T a 0 then NaN
    else if Rlt_dec 0 a then PInf else NInf
  else Fin (a / b).

(** [np.exp]. *)
Definition np_exp (x : xreal) : xreal :=
  match x with
  | Fin r => Fin (exp r)
  | PInf => PInf
  | NInf => Fin 0
  | NaN => NaN
  end.

(** Least integer not below [x]. *)
Definition ceil (x : R) : Z := (1 - up (- x))%Z.

(** [np.arange(start, stop, step)]: [ceil((stop - start) / step)] values
    [start + i * step]; none when that length is not positive; a zero step
    is an error. *)
Definition np_arange (start stop step : R) : result (list R) :=
  if Req_dec_T step 0 then Raise ZeroDivisionError
  else Ok (map (fun i => start + INR i * step)
               (seq 0 (Z.to_nat (ceil ((stop - start) / step))))).

(** The object state: [self.filter] and [self.var]. *)
Record t : Type := mk { filter : list R; var : R }.

(** [GaussianDistance.__init__(dmin, dmax, step, var=None)]. *)
Definition init (dmin dmax step : R) (var : option R) : result t :=
  if Rlt_dec dmin dmax then
    if Rgt_dec (dmax - dmin) step then
      f ← np_arange dmin (dmax + step) step;
      Ok (mk f (match var with None => step | Some v => v end))
    else Raise AssertionError
  else Raise AssertionError.

(** One channel of the expansion of one distance:
    [exp(-(d - c)**2 / var**2)]. *)
Definition channel (self : t) (d c : R) : xreal :=
  np_exp (np_div (- (d - c) ^ 2) (var self ^ 2)).

(** The expansion of one distance, one channel per filter center. *)
Definition expand1 (self : t) (d : R) : list xreal :=
  map (channel self d) (filter self).

(** [GaussianDistance.expand(distances)]: a new last axis of length
    [len(self.filter)]. *)
Definition expand (self : t) (distances : Tensor.t R) : Tensor.t xreal :=
  Tensor.mk (Tensor.shape distances ++ [length (filter self)])
            (concat (map (expand1 self) (Tensor.data distances))).

(** A single distance, as a zero-dimensional array. *)
Definition scalar (d : R) : Tensor.t R := Tensor.mk [] [d].

End GaussianDistance.

(** ** The sample builder: [CIFData] *)

Module CIFData.

Import Collate.

(** What the code reads of [crystal[i]]: [specie.number] and
    [specie.is_metal]. *)
Record Site : Type := mkSite { number : Z; is_metal : bool }.

(** What the code reads of a neighbor tuple [x]: the distance [x[1]] and
    the atom index [x[2]]. *)
Record Neighbor : Type := mkNeighbor { nn_distance : Q; nn_index : Z }.

(** The loaded structure, as far as the code uses it: its sites,
    [crystal.get_neighbors(crystal[i], r)] and
    [crystal.get_all_neighbors(r)]. *)
Record Structure : Type := mkStructure {
  sites : list Site;
  get_neighbors : nat -> Q -> list Neighbor;
  get_all_neighbors : Q -> list (list Neighbor)
}.

(** The fields [CIFData.__init__] sets and [__getitem__] reads. *)
Record t : Type := mk {
  max_num_nbr : nat;
  radius : Q;
  metal_max_num_nbr : nat;
  metal_radius : Q;
  gdf : GaussianDistance.t
}.

(** [CIFData.__init__]; [root_exists] is [os.path.exists(root_dir)]. *)
Definition init (root_exists : bool)
    (max_num_nbr metal_max_num_nbr : nat) (metal_radius radius dmin step : Q)
    : result t :=
  if root_exists then
    g ← GaussianDistance.init (Q2R dmin) (Q2R radius) (Q2R step) None;
    Ok (mk max_num_nbr radius metal_max_num_nbr metal_radius g)
  else Raise AssertionError.

(** [sorted(nbrs, key=lambda x: x[1])]: a stable sort by distance. *)
Fixpoint insert_by_distance (x : Neighbor) (l : list Neighbor) : list Neighbor :=
  match l with
  | [] => [x]
  | y :: r =>
      if Qle_bool (nn_distance x) (nn_distance y) then x :: y :: r
      else y :: insert_by_distance x r
  end.

Fixpoint sorted (nbrs : list Neighbor) : list Neighbor :=
  match nbrs with
  | [] => []
  | x :: r => insert_by_distance x (sorted r)
  end.

(** The first loop: the indices [i] of the metal atoms, in order, starting
    the count at [i]. *)
Fixpoint scan_metals (i : nat) (ss : list Site) : list Z :=
  match ss with
  | [] => []
  | s :: r =>
      if is_metal s then Z.of_nat i :: scan_metals (S i) r
      else scan_metals (S i) r
  end.

Definition metal_index (crystal : Structure) : list Z :=
  scan_metals 0 (sites crystal).

(** [[crystal[i].specie.number, len(crystal.get_neighbors(crystal[i], 1.6))]]
    for every atom. *)
Definition atom_fea_rows (crystal : Structure) : list (list Z) :=
  imap (fun i s => [number s; Z.of_nat (length (get_neighbors crystal i (16 # 10)))])
       (sites crystal).

(** [metal_neighs]: the neighbors within [metal_radius] of every metal
    atom. *)
Fixpoint scan_metal_neighs (crystal : Structure) (r : Q) (i : nat) (ss : list Site)
    : list (list Neighbor) :=
  match ss with
  | [] => []
  | s :: rest =>
      if is_metal s
      then get_neighbors crystal i r :: scan_metal_neighs crystal r (S i) rest
      else scan_metal_neighs crystal r (S i) rest
  end.

(** One row of indices: the first [cap] neighbors, padded with index 0. *)
Definition idx_row (cap : nat) (nbr : list Neighbor) : list Z :=
  if (length nbr <? cap)%nat
  then map nn_index nbr ++ replicate (cap - length nbr) 0%Z
  else map nn_index (take cap nbr).

(** One row of distances: the first [cap] neighbors, padded with [pad]. *)
Definition dist_row (cap : nat) (pad : Q) (nbr : list Neighbor) : list Q :=
  if (length nbr <? cap)%nat
  then map nn_distance nbr ++ replicate (cap - length nbr) pad
  else map nn_distance (take cap nbr).

(** The loop that fills [M_idx]: every row is asserted to have [cap]
    entries and its entries [0 .. cap-1] are appended. *)
Fixpoint flatten_rows (cap : nat) (rows : list (list Z)) : result (list Z) :=
  match rows with
  | [] => Ok []
  | row :: rest =>
      if (length row =? cap)%nat then
        tail ← flatten_rows cap rest;
        Ok (map (fun j => nth j row 0%Z) (seq 0 cap) ++ tail)
      else Raise AssertionError
  end.

(** [M_idx] for a structure. *)
Definition M_idx (self : t) (crystal : Structure) : result (list Z) :=
  let metal_neighs :=
    scan_metal_neighs crystal (metal_radius self) 0 (sites crystal) in
  let all_metal_nbrs := map sorted metal_neighs in
  let metal_nbr_idx := map (idx_row (metal_max_num_nbr self)) all_metal_nbrs in
  flatten_rows (metal_max_num_nbr self) metal_nbr_idx.

(** [list(set(M_idx) | set(metal_index))]. *)
Definition M1_idx (M_idx metal_index : list Z) : list Z :=
  elements ((list_to_set M_idx : gset Z) ∪ list_to_set metal_index).

(** [all_nbrs], every list sorted by distance. *)
Definition all_nbrs (self : t) (crystal : Structure) : list (list Neighbor) :=
  map sorted (get_all_neighbors crystal (radius self)).

(** The rows of [nbr_fea_idx] and of [nbr_fea] before the expansion. *)
Definition nbr_fea_idx_rows (self : t) (crystal : Structure) : list (list Z) :=
  map (idx_row (max_num_nbr self)) (all_nbrs self crystal).

Definition nbr_fea_rows (self : t) (crystal : Structure) : list (list Q) :=
  map (dist_row (max_num_nbr self) (radius self + 1)%Q) (all_nbrs self crystal).

(** [np.array(rows)] and [torch.Tensor(rows)] for a list of rows of one
    length: no row gives shape (0,). *)
Definition of_rows {A : Type} (rows : list (list A)) : Tensor.t A :=
  match rows with
  | [] => Tensor.mk [0%nat] []
  | row :: _ => Tensor.mk [length rows; length row] (concat rows)
  end.

(** [torch.Tensor(xs)] for a flat list. *)
Definition of_list {A : Type} (xs : list A) : Tensor.t A :=
  Tensor.mk [length xs] xs.

Definition tmap {A B : Type} (f : A -> B) (x : Tensor.t A) : Tensor.t B :=
  Tensor.mk (Tensor.shape x) (map f (Tensor.data x)).

Definition of_Z (z : Z) : GaussianDistance.xreal := GaussianDistance.Fin (IZR z).
Definition of_Q (q : Q) : GaussianDistance.xreal := GaussianDistance.Fin (Q2R q).

(** [CIFData.__getitem__], from the point where the row of the property
    table has been read ([cif_id], [target], [m2_feature]) and the
    structure has been loaded ([crystal]). *)
Definition getitem (self : t) (cif_id : string) (target m2_feature : list Q)
    (crystal : Structure) : result (Sample GaussianDistance.xreal) :=
  let metal_index := metal_index crystal in
  let metal_number := length metal_index in
  if (metal_number =? 0)%nat then Raise (SystemExit 0)
  else
    let atom_fea := atom_fea_rows crystal in
    M_idx ← M_idx self crystal;
    let nbr_fea_idx := of_rows (nbr_fea_idx_rows self crystal) in
    let nbr_fea := of_rows (nbr_fea_rows self crystal) in
    let M1_idx := M1_idx M_idx metal_index in
    let nbr_fea := GaussianDistance.expand (gdf self) (tmap Q2R nbr_fea) in
    Ok (mkSample
          (tmap of_Z (of_rows atom_fea))
          nbr_fea
          nbr_fea_idx
          (of_list M1_idx)
          (of_list (map of_Q m2_feature))
          (of_list (map of_Q target))
          cif_id).

(** *** Vocabulary of the specification *)

(** Atom [i] is a metal atom. *)
Definition metal_at (crystal : Structure) (i : nat) : Prop :=
  exists s, sites crystal !! i = Some s /\ is_metal s = true.

(** Distances ascend along the list. *)
Definition ascending (nbrs : list Neighbor) : Prop :=
  StronglySorted (fun x y => (nn_distance x <= nn_distance y)%Q) nbrs.

(** What the code relies on from the neighbor search of the geometry
    library, at the two radii it asks for: one neighbor list per atom, and
    neighbor indices that are indices of atoms of the structure. *)
Record provider_ok (self : t) (crystal : Structure) : Prop := {
  all_neighbors_length :
    length (get_all_neighbors crystal (radius self)) = length (sites crystal);
  all_neighbors_index :
    forall nbrs x,
      nbrs ∈ get_all_neighbors crystal (radius self) -> x ∈ nbrs ->
      (0 <= nn_index x < Z.of_nat (length (sites crystal)))%Z;
  neighbors_index :
    forall i x,
      x ∈ get_neighbors crystal i (metal_radius self) ->
      (0 <= nn_index x < Z.of_nat (length (sites crystal)))%Z
}.

(** What [__getitem__] starts from for one identifier: the row of the
    property table, read, and the structure, loaded. *)
Record Entry : Type := mkEntry {
  entry_id : string;
  entry_target : list Q;
  entry_m2 : list Q;
  entry_crystal : Structure
}.

End CIFData.

(** ** Sample inputs *)

Module Examples.

Import Collate.

(** A sample of three atoms, two neighbors each, two primary indices. *)
Definition three_atoms : Sample Z :=
  mkSample (Tensor.mk [3; 2]%nat [6; 0; 30; 2; 8; 0])
           (Tensor.mk [3; 2; 1]%nat [1; 1; 1; 1; 1; 1])
           (Tensor.mk [3; 2]%nat [1; 2; 0; 2; 0; 1])
           (Tensor.mk [2]%nat [0; 2])
           (Tensor.mk [1]%nat [7])
           (Tensor.mk [1]%nat [9])
           "three".

(** A sample of five atoms, two neighbors each, three primary indices. *)
Definition five_atoms : Sample Z :=
  mkSample (Tensor.mk [5; 2]%nat [6; 0; 6; 0; 29; 2; 8; 0; 8; 0])
           (Tensor.mk [5; 2; 1]%nat [1; 1; 1; 1; 1; 1; 1; 1; 1; 1])
           (Tensor.mk [5; 2]%nat [1; 2; 0; 2; 3; 4; 2; 4; 2; 3])
           (Tensor.mk [3]%nat [2; 3; 4])
           (Tensor.mk [1]%nat [7])
           (Tensor.mk [1]%nat [9])
           "five".

Definition two_samples : list (Sample Z) := [three_atoms; five_atoms].

Import CIFData.

(** The radial basis with [dmin = 0], [dmax = 6] and [step = 1]: centers
    0, 1, .., 6. *)
Definition unit_steps : GaussianDistance.t :=
  GaussianDistance.mk (map (fun i => (Q2R 0 + INR i * Q2R 1)%R) (seq 0 7)) (Q2R 1).

(** A dataset object with room for two neighbors per atom and per metal
    atom, radius 6 and metal radius 8. *)
Definition two_slots : CIFData.t := CIFData.mk 2 6 2 8 unit_steps.

(** The defaults for the counts and radii: ten neighbors per atom within
    6, sixteen per metal atom within 8. *)
Definition defaults : CIFData.t := CIFData.mk 10 6 16 8 unit_steps.

(** Zinc at index 1 between a carbon and an oxygen; the oxygen is the
    nearer of its two neighbors. *)
Definition zinc_between : Structure :=
  mkStructure
    [mkSite 6 false; mkSite 30 true; mkSite 8 false]
    (fun i r => match i with
                | 1%nat => [mkNeighbor (21 # 10) 0; mkNeighbor 2 2]
                | _ => []
                end)
    (fun r => [[mkNeighbor (21 # 10) 1];
               [mkNeighbor (21 # 10) 0; mkNeighbor 2 2];
               [mkNeighbor 2 1]]).

(** A carbon at index 0 and an iron at index 1, too far apart to be
    neighbors at any radius asked. *)
Definition lone_iron : Structure :=
  mkStructure
    [mkSite 6 false; mkSite 26 true]
    (fun i r => [])
    (fun r => [[]; []]).

(** Two carbons, no metal. *)
Definition no_metal : Structure :=
  mkStructure
    [mkSite 6 false; mkSite 6 false]
    (fun i r => [])
    (fun r => [[]; []]).

End Examples.

(** * Properties *)

(** ** Lists *)

Module ListFacts.

(** The entry at position [i] of the [k]-th list of a concatenation. *)
Lemma lookup_concat {A : Type} (ls : list (list A)) :
  forall k l i x,
    ls !! k = Some l -> l !! i = Some x ->
    concat ls !! (sum_list_with (@length A) (take k ls) + i)%nat = Some x.
Proof.
  induction ls as [|l0 ls IH]; intros k l i x Hk Hi; [done|].
  destruct k as [|k]; simpl in *.
  - injection Hk as ->. by apply lookup_app_l_Some.
  - rewrite <- Nat.add_assoc, lookup_app_r by lia.
    replace (length l0 + _ - length l0)%nat
      with (sum_list_with (@length A) (take k ls) + i)%nat by lia.
    by eapply IH.
Qed.

End ListFacts.

(** ** Tensors: when [cat] and [stack] succeed, and what they return *)

Module TensorFacts.

Import Tensor.

Section Cat.

Context {A : Type}.
Implicit Types (x : Tensor.t A) (xs : list (Tensor.t A)).

Lemma legacy_empty_shape x : legacy_empty x = true -> shape x = [0%nat].
Proof.
  unfold legacy_empty, shape_eqb. intros H. by apply bool_decide_eq_true in H.
Qed.

Lemma wf_legacy_empty x : wf x -> keep x = false -> data x = [].
Proof.
  unfold keep, wf. intros Hwf Hk. apply negb_false_iff in Hk.
  apply legacy_empty_shape in Hk. rewrite Hk in Hwf. simpl in Hwf.
  by apply nil_length_inv.
Qed.

Lemma heads_filter_keep xs :
  sum_list (heads (List.filter keep xs)) = sum_list (heads xs).
Proof.
  induction xs as [|x xs IH]; [done|]. simpl.
  destruct (keep x) eqn:Hk; simpl; [by rewrite IH|].
  apply negb_false_iff, legacy_empty_shape in Hk. rewrite Hk. simpl. exact IH.
Qed.

Lemma data_filter_keep xs :
  Forall (fun x => keep x = false -> data x = []) xs ->
  concat (map data (List.filter keep xs)) = concat (map data xs).
Proof.
  induction 1 as [|x xs Hx _ IH]; [done|]. simpl.
  destruct (keep x) eqn:Hk; simpl; [by rewrite IH|].
  rewrite Hx by done. exact IH.
Qed.

Lemma same_trailing_filter tl xs :
  Forall (fun x => exists n, shape x = n :: tl) xs ->
  forallb (same_trailing tl) (List.filter keep xs) = true.
Proof.
  induction 1 as [|x xs [n Hx] _ IH]; [done|]. simpl.
  destruct (keep x); [|exact IH]. simpl. rewrite IH, andb_true_r.
  unfold same_trailing, shape_eqb. rewrite Hx. by apply bool_decide_eq_true.
Qed.

(** Tensors that agree on every axis but the first are concatenated along
    the first axis. *)
Lemma cat_ok tl xs :
  xs <> [] ->
  Forall (fun x => exists n, shape x = n :: tl) xs ->
  Forall (fun x => keep x = false -> data x = []) xs ->
  cat xs = Ok (mk (sum_list (heads xs) :: tl) (concat (map data xs))).
Proof.
  intros Hne Hsh Hdata. unfold cat.
  destruct xs as [|x0 xs0]; [done|]. set (xs := x0 :: xs0) in *.
  pose proof (heads_filter_keep xs) as Hh.
  pose proof (data_filter_keep xs Hdata) as Hd.
  pose proof (same_trailing_filter tl xs Hsh) as Ht.
  assert (Hfil : Forall (fun x => exists n, shape x = n :: tl) (List.filter keep xs)).
  { apply Forall_forall. intros y Hy. apply list_elem_of_In, filter_In in Hy as [Hy _].
    rewrite Forall_forall in Hsh. by apply Hsh, list_elem_of_In. }
  destruct (List.filter keep xs) as [|y rest] eqn:Hf.
  - rewrite <- Hh, <- Hd.
    destruct tl as [|m tl']; [done|].
    (* a tensor with a second axis is never left out *)
    exfalso. inversion Hsh as [|? ? [n Hx0] _]; subst.
    assert (keep x0 = true) as Hk.
    { unfold keep, legacy_empty, shape_eqb. rewrite Hx0.
      apply negb_true_iff, bool_decide_eq_false. discriminate. }
    subst xs. simpl in Hf. rewrite Hk in Hf. discriminate.
  - inversion Hfil as [|? ? [n Hy] _]; subst. rewrite Hy.
    simpl in Ht. apply andb_true_iff in Ht as [_ Ht]. rewrite Ht.
    by rewrite Hh, Hd.
Qed.

(** Tensors of one shape are stacked along a new first axis. *)
Lemma stack_ok sh xs :
  xs <> [] ->
  Forall (fun x => shape x = sh) xs ->
  stack xs = Ok (mk (length xs :: sh) (concat (map data xs))).
Proof.
  intros Hne Hsh. destruct xs as [|x rest]; [done|]. unfold stack.
  inversion Hsh as [|? ? Hx Hrest]; subst.
  replace (forallb _ rest) with true; [done|].
  symmetry. apply forallb_forall. intros y Hy.
  rewrite Forall_forall in Hrest. unfold shape_eqb.
  apply bool_decide_eq_true. symmetry. by apply Hrest, list_elem_of_In.
Qed.

End Cat.

End TensorFacts.

(** ** The batch collator *)

Module CollateFacts.

Import Tensor Collate ListFacts TensorFacts.

Lemma seq_shift_of_nat (c m : nat) :
  map (fun j => Z.of_nat j + Z.of_nat c) (seq 0 m) = map Z.of_nat (seq c m).
Proof.
  change (seq c m) with (seq (0 + c) m). generalize 0%nat as a.
  induction m as [|m IH]; intros a; [done|]. simpl.
  f_equal; [lia|]. apply (IH (S a)).
Qed.

Section WithFeatures.

Context {F : Type}.
Implicit Types (s : Sample F) (ds : list (Sample F)) (st : Locals F).

Lemma shape0_hd {A : Type} (x : Tensor.t A) n :
  shape0 x = Ok n -> n = hd 0%nat (shape x).
Proof. unfold shape0. destruct (shape x); [done|]. by intros [= ->]. Qed.

Lemma atom_offset_S s ds k :
  atom_offset (s :: ds) (S k) = (n_atoms s + atom_offset ds k)%nat.
Proof. reflexivity. Qed.

Lemma group_offset_S s ds k :
  group_offset (s :: ds) (S k) = (n_primary s + group_offset ds k)%nat.
Proof. reflexivity. Qed.

(** Consecutive ranges of the grouping touch: each starts where the one
    before it ends. *)
Lemma group_offset_next ds k s :
  ds !! k = Some s ->
  group_offset ds (S k) = (group_offset ds k + n_primary s)%nat.
Proof.
  unfold group_offset. intros Hk.
  rewrite (take_S_r _ _ _ Hk), sum_list_with_app. simpl. lia.
Qed.

Lemma atom_offset_all ds k :
  (length ds <= k)%nat -> atom_offset ds k = sum_list_with n_atoms ds.
Proof. intros H. unfold atom_offset. by rewrite take_ge. Qed.

(** What the loop leaves in the local variables. *)
Lemma loop_fields ds :
  forall st st',
    loop st ds = Ok st' ->
    batch_atom_fea st' = batch_atom_fea st ++ map atom_fea ds /\
    batch_nbr_fea st' = batch_nbr_fea st ++ map nbr_fea ds /\
    batch_nbr_fea_idx st' =
      batch_nbr_fea_idx st ++
      imap (fun k s => add_scalar (nbr_fea_idx s)
                         (base_idx st + Z.of_nat (atom_offset ds k))) ds /\
    batch_m1_index st' =
      batch_m1_index st ++
      imap (fun k s => add_scalar (m1_index s)
                         (base_idx st + Z.of_nat (atom_offset ds k))) ds /\
    crystal_atom_idx st' =
      crystal_atom_idx st ++
      imap (fun k s => arange_plus (n_primary s)
                         (base_m1_idx st + Z.of_nat (group_offset ds k))) ds /\
    batch_target st' = batch_target st ++ map target ds /\
    batch_cif_ids st' = batch_cif_ids st ++ map cif_id ds /\
    batch_m2_fea st' = batch_m2_fea st ++ map m2_feature ds.
Proof.
  induction ds as [|s ds IH]; intros st st' Hloop; simpl in Hloop.
  - injection Hloop as <-. simpl. by rewrite !app_nil_r.
  - unfold step in Hloop.
    destruct (shape0 (atom_fea s)) as [n_i|] eqn:Hn; [|done].
    destruct (shape0 (m1_index s)) as [m1_i|] eqn:Hm; [|done].
    apply shape0_hd in Hn, Hm. simpl in Hloop.
    apply IH in Hloop. simpl in Hloop.
    destruct Hloop as (H1 & H2 & H3 & H4 & H5 & H6 & H7 & H8).
    rewrite H1, H2, H3, H4, H5, H6, H7, H8, <- !app_assoc, !imap_cons.
    assert (Ha0 : atom_offset (s :: ds) 0 = 0%nat) by reflexivity.
    assert (Hg0 : group_offset (s :: ds) 0 = 0%nat) by reflexivity.
    rewrite Ha0, Hg0, !Z.add_0_r. subst n_i m1_i.
    fold (n_atoms s) (n_primary s). cbn [app map].
    repeat split; do 2 f_equal; apply imap_ext; intros k s' _; cbn;
      f_equal; unfold atom_offset, group_offset; lia.
Qed.

(** The loop runs through when every sample has a first axis to read the
    counts from. *)
Lemma loop_ok ds :
  forall st,
    Forall (fun s => shape (atom_fea s) <> [] /\ shape (m1_index s) <> []) ds ->
    exists st', loop st ds = Ok st'.
Proof.
  induction ds as [|s ds IH]; intros st Hds; [by eexists|].
  inversion Hds as [|? ? [Ha Hm] Hrest]; subst. simpl. unfold step, shape0.
  destruct (shape (atom_fea s)); [done|]. destruct (shape (m1_index s)); [done|].
  simpl. by apply IH.
Qed.

Lemma sum_list_with_take_le {A : Type} (f : A -> nat) (l : list A) k :
  (sum_list_with f (take k l) <= sum_list_with f l)%nat.
Proof.
  rewrite <- (take_drop k l) at 2. rewrite sum_list_with_app. lia.
Qed.

Lemma offset_bound {A : Type} (f : A -> nat) (l : list A) k x :
  l !! k = Some x ->
  (sum_list_with f (take k l) + f x <= sum_list_with f l)%nat.
Proof.
  intros Hk. pose proof (sum_list_with_take_le f l (S k)) as H.
  rewrite (take_S_r _ _ _ Hk), sum_list_with_app in H. simpl in H. lia.
Qed.

Lemma heads_sum {A : Type} (g : Sample F -> Tensor.t A) (f : Sample F -> nat) ds :
  (forall s, s ∈ ds -> hd 0%nat (shape (g s)) = f s) ->
  sum_list (heads (map g ds)) = sum_list_with f ds.
Proof.
  induction ds as [|s ds IH]; intros H; [done|]. simpl.
  rewrite (H s) by apply list_elem_of_here. f_equal. apply IH. intros s' Hs'.
  by apply H, list_elem_of_further.
Qed.

Lemma heads_imap {A : Type} (g : nat -> Sample F -> Tensor.t A) (f : Sample F -> nat) ds :
  (forall k s, hd 0%nat (shape (g k s)) = f s) ->
  sum_list (heads (imap g ds)) = sum_list_with f ds.
Proof.
  revert g. induction ds as [|s ds IH]; intros g H; [done|].
  rewrite imap_cons. simpl. rewrite H. f_equal. apply IH. intros k s'. apply H.
Qed.

Lemma imap_lengths {A : Type} (h : nat -> Sample F -> list A) (len : Sample F -> nat) ds :
  (forall k s, length (h k s) = len s) ->
  forall k, sum_list_with (@length A) (take k (imap h ds)) = sum_list_with len (take k ds).
Proof.
  revert h. induction ds as [|s ds IH]; intros h H k.
  - by destruct k.
  - destruct k as [|k]; [done|]. rewrite imap_cons. simpl. rewrite H. f_equal.
    apply IH. intros j s'. apply H.
Qed.

(** An index of sample [k] sits in the output at its place in the sample's
    portion, shifted by the offset of the sample. *)
Lemma shifted_lookup (g : Sample F -> Tensor.t Z) (off : nat -> Z) ds k s i x :
  ds !! k = Some s ->
  data (g s) !! i = Some x ->
  concat (map data (imap (fun k s => add_scalar (g s) (off k)) ds))
    !! (sum_list_with (fun s => length (data (g s))) (take k ds) + i)%nat
  = Some (x + off k).
Proof.
  intros Hk Hi.
  change (map data ?l) with (data <$> l). rewrite fmap_imap.
  rewrite <- (imap_lengths
    (fun n => data ∘ (fun s0 => add_scalar (g s0) (off n))) _ ds
    (fun j s' => length_map _ _) k).
  eapply lookup_concat.
  - rewrite list_lookup_imap, Hk. reflexivity.
  - simpl. change (map ?f ?l) with (f <$> l). by rewrite list_lookup_fmap, Hi.
Qed.

(** Shifted indices of a sample stay inside the rows of that sample, hence
    inside the flattened atom axis. *)
Lemma shifted_valid (g : Sample F -> Tensor.t Z) ds :
  Forall (fun s => Forall (fun x => 0 <= x < Z.of_nat (n_atoms s)) (data (g s))) ds ->
  Forall (fun y => 0 <= y < Z.of_nat (sum_list_with n_atoms ds))
    (concat (map data
       (imap (fun k s => add_scalar (g s) (Z.of_nat (atom_offset ds k))) ds))).
Proof.
  intros Hloc. change (map data ?l) with (data <$> l). rewrite fmap_imap.
  apply Forall_concat, Forall_lookup_2. intros k l Hl.
  rewrite list_lookup_imap in Hl.
  destruct (ds !! k) as [s|] eqn:Hk; [|done]. injection Hl as <-. simpl.
  rewrite Forall_lookup in Hloc. specialize (Hloc k s Hk).
  apply Forall_map. eapply Forall_impl; [exact Hloc|]. intros x Hx. simpl in *.
  pose proof (offset_bound n_atoms ds k s Hk). unfold atom_offset. lia.
Qed.

(** The grouping ranges, laid end to end, count through the whole
    primary-index axis. *)
Lemma groups_partition ds :
  forall base,
    concat (imap (fun k s =>
        map Z.of_nat (seq (base + group_offset ds k) (n_primary s))) ds)
    = map Z.of_nat (seq base (sum_list_with n_primary ds)).
Proof.
  induction ds as [|s ds IH]; intros base; [done|].
  rewrite imap_cons. cbn [concat sum_list_with].
  rewrite seq_app, map_app. f_equal.
  - unfold group_offset. simpl. by rewrite Nat.add_0_r.
  - rewrite <- IH. f_equal. apply imap_ext. intros k s' _. simpl.
    rewrite group_offset_S. do 2 f_equal. lia.
Qed.

Lemma keep_matrix {A : Type} (x : Tensor.t A) n m tl :
  shape x = n :: m :: tl -> keep x = true.
Proof.
  intros H. unfold keep, legacy_empty, shape_eqb. rewrite H.
  apply negb_true_iff, bool_decide_eq_false. discriminate.
Qed.

(** On samples shaped as the data model says, the collator returns this
    batch. *)
Lemma collate_pool_shaped (a M L q T : nat) ds :
  ds <> [] ->
  Forall (shaped a M L q T) ds ->
  collate_pool ds = Ok (mkBatch
    (mk [sum_list_with n_atoms ds; a] (concat (map data (map atom_fea ds))))
    (mk [sum_list_with n_atoms ds; M; L] (concat (map data (map nbr_fea ds))))
    (mk [sum_list_with n_atoms ds; M]
        (concat (map data (imap (fun k s =>
           add_scalar (nbr_fea_idx s) (Z.of_nat (atom_offset ds k))) ds))))
    (mk [sum_list_with n_primary ds]
        (concat (map data (imap (fun k s =>
           add_scalar (m1_index s) (Z.of_nat (atom_offset ds k))) ds))))
    (imap (fun k s => arange_plus (n_primary s) (Z.of_nat (group_offset ds k))) ds)
    (mk [length ds; q] (concat (map data (map m2_feature ds))))
    (mk [length ds; T] (concat (map data (map target ds))))
    (map cif_id ds)).
Proof.
  intros Hne Hsh. unfold collate_pool.
  destruct (loop_ok ds init) as [st Hst].
  { eapply Forall_impl; [exact Hsh|]. intros s [Ha _ _ Hm _ _ _ _].
    rewrite Ha, Hm. done. }
  rewrite Hst. cbn [mbind result_bind].
  destruct (loop_fields ds init st Hst) as (H1 & H2 & H3 & H4 & H5 & H6 & H7 & H8).
  cbn [init batch_atom_fea batch_nbr_fea batch_nbr_fea_idx batch_m1_index
       crystal_atom_idx batch_target batch_cif_ids batch_m2_fea base_idx
       base_m1_idx app] in H1, H2, H3, H4, H5, H6, H7, H8.
  change (fun (k : nat) (s : Sample F) =>
            add_scalar (nbr_fea_idx s) (0 + Z.of_nat (atom_offset ds k)))
    with (fun (k : nat) (s : Sample F) =>
            add_scalar (nbr_fea_idx s) (Z.of_nat (atom_offset ds k))) in H3.
  change (fun (k : nat) (s : Sample F) =>
            add_scalar (m1_index s) (0 + Z.of_nat (atom_offset ds k)))
    with (fun (k : nat) (s : Sample F) =>
            add_scalar (m1_index s) (Z.of_nat (atom_offset ds k))) in H4.
  change (fun (k : nat) (s : Sample F) =>
            arange_plus (n_primary s) (0 + Z.of_nat (group_offset ds k)))
    with (fun (k : nat) (s : Sample F) =>
            arange_plus (n_primary s) (Z.of_nat (group_offset ds k))) in H5.
  rewrite H1, H2, H3, H4, H5, H6, H7, H8.
  assert (Hlen : forall A (f : Sample F -> A), map f ds <> []).
  { intros A f. destruct ds; done. }
  assert (Hilen : forall A (f : nat -> Sample F -> A), imap f ds <> []).
  { intros A f. destruct ds; done. }
  rewrite Forall_forall in Hsh.
  rewrite (cat_ok [a] (map atom_fea ds)); cycle 1.
  { apply Hlen. }
  { apply Forall_map, Forall_forall. intros s Hs. exists (n_atoms s).
    apply (shaped_atom _ _ _ _ _ _ (Hsh s Hs)). }
  { apply Forall_map, Forall_forall. intros s Hs Hk.
    rewrite (keep_matrix _ _ _ _ (shaped_atom _ _ _ _ _ _ (Hsh s Hs))) in Hk. done. }
  rewrite (cat_ok [M; L] (map nbr_fea ds)); cycle 1.
  { apply Hlen. }
  { apply Forall_map, Forall_forall. intros s Hs. exists (n_atoms s).
    apply (shaped_nbr _ _ _ _ _ _ (Hsh s Hs)). }
  { apply Forall_map, Forall_forall. intros s Hs Hk.
    rewrite (keep_matrix _ _ _ _ (shaped_nbr _ _ _ _ _ _ (Hsh s Hs))) in Hk. done. }
  rewrite (cat_ok [M] (imap (fun k s =>
    add_scalar (nbr_fea_idx s) (Z.of_nat (atom_offset ds k))) ds)); cycle 1.
  { apply Hilen. }
  { apply Forall_lookup_2. intros k x Hx. rewrite list_lookup_imap in Hx.
    destruct (ds !! k) as [s|] eqn:Hk; [|done]. injection Hx as <-.
    exists (n_atoms s). simpl.
    apply (shaped_idx _ _ _ _ _ _ (Hsh s (list_elem_of_lookup_2 _ _ _ Hk))). }
  { apply Forall_lookup_2. intros k x Hx. rewrite list_lookup_imap in Hx.
    destruct (ds !! k) as [s|] eqn:Hk; [|done]. injection Hx as <-. intros Hkeep.
    rewrite (keep_matrix _ (n_atoms s) M []) in Hkeep; [done|]. simpl.
    apply (shaped_idx _ _ _ _ _ _ (Hsh s (list_elem_of_lookup_2 _ _ _ Hk))). }
  rewrite (cat_ok [] (imap (fun k s =>
    add_scalar (m1_index s) (Z.of_nat (atom_offset ds k))) ds)); cycle 1.
  { apply Hilen. }
  { apply Forall_lookup_2. intros k x Hx. rewrite list_lookup_imap in Hx.
    destruct (ds !! k) as [s|] eqn:Hk; [|done]. injection Hx as <-.
    exists (n_primary s). simpl.
    apply (shaped_m1 _ _ _ _ _ _ (Hsh s (list_elem_of_lookup_2 _ _ _ Hk))). }
  { apply Forall_lookup_2. intros k x Hx. rewrite list_lookup_imap in Hx.
    destruct (ds !! k) as [s|] eqn:Hk; [|done]. injection Hx as <-. intros Hkeep.
    simpl. rewrite (wf_legacy_empty (m1_index s)); [done| |exact Hkeep].
    apply (shaped_m1_wf _ _ _ _ _ _ (Hsh s (list_elem_of_lookup_2 _ _ _ Hk))). }
  rewrite (stack_ok [q] (map m2_feature ds)); cycle 1.
  { apply Hlen. }
  { apply Forall_map, Forall_forall. intros s Hs.
    apply (shaped_m2 _ _ _ _ _ _ (Hsh s Hs)). }
  rewrite (stack_ok [T] (map target ds)); cycle 1.
  { apply Hlen. }
  { apply Forall_map, Forall_forall. intros s Hs.
    apply (shaped_target _ _ _ _ _ _ (Hsh s Hs)). }
  cbn [mbind result_bind]. rewrite !length_map.
  rewrite (heads_sum atom_fea n_atoms), (heads_sum nbr_fea n_atoms).
  2,3: intros s Hs; unfold n_atoms;
       by rewrite ?(shaped_nbr _ _ _ _ _ _ (Hsh s Hs)),
                  ?(shaped_atom _ _ _ _ _ _ (Hsh s Hs)).
  rewrite (heads_imap _ (fun s => hd 0%nat (shape (nbr_fea_idx s)))) by done.
  rewrite (heads_imap _ n_primary) by done.
  do 3 f_equal. f_equal.
  induction ds as [|s ds IH] in Hsh |- *; [done|]. simpl.
  rewrite (shaped_idx _ _ _ _ _ _ (Hsh s (list_elem_of_here _ _))). simpl. f_equal.
  destruct ds as [|s' ds']; [done|]. apply IH. intros x Hx.
  by apply Hsh, list_elem_of_further.
Qed.

Lemma nbr_start_rows (a M L q T : nat) ds k :
  Forall (shaped a M L q T) ds ->
  nbr_start ds k = (atom_offset ds k * M)%nat.
Proof.
  intros Hsh. unfold nbr_start, atom_offset.
  assert (Hk : Forall (shaped a M L q T) (take k ds)) by by apply Forall_take.
  induction Hk as [|s l Hs _ IH]; [done|]. simpl. rewrite IH.
  pose proof (shaped_idx_wf _ _ _ _ _ _ Hs) as Hwf. unfold wf in Hwf.
  rewrite (shaped_idx _ _ _ _ _ _ Hs) in Hwf. simpl in Hwf. lia.
Qed.

(** C1. On a non-empty list of samples whose indices refer to their own
    atoms, the collator returns a batch in which every neighbor index and
    every primary index of sample [k] is its per-sample value plus the
    number of atoms of the samples before [k]; all of them are valid rows
    of the flattened atom axis; and the grouping ranges are the consecutive
    ranges [group_offset k, group_offset k + p_k), which laid end to end
    are exactly 0 .. P-1 for the length P of the primary-index axis. *)
Theorem collate_pool_offsets (a M L q T : nat) ds :
  ds <> [] ->
  Forall (shaped a M L q T) ds ->
  Forall indices_local ds ->
  exists b,
    collate_pool ds = Ok b /\
    (forall k s i x,
        ds !! k = Some s -> data (nbr_fea_idx s) !! i = Some x ->
        data (out_nbr_fea_idx b) !! (atom_offset ds k * M + i)%nat
        = Some (x + Z.of_nat (atom_offset ds k))) /\
    (forall k s i x,
        ds !! k = Some s -> data (m1_index s) !! i = Some x ->
        data (out_m1_index b) !! (group_offset ds k + i)%nat
        = Some (x + Z.of_nat (atom_offset ds k))) /\
    shape (out_atom_fea b) = [sum_list_with n_atoms ds; a] /\
    shape (out_nbr_fea_idx b) = [sum_list_with n_atoms ds; M] /\
    Forall (fun y => 0 <= y < Z.of_nat (sum_list_with n_atoms ds))
           (data (out_nbr_fea_idx b)) /\
    Forall (fun y => 0 <= y < Z.of_nat (sum_list_with n_atoms ds))
           (data (out_m1_index b)) /\
    shape (out_m1_index b) = [sum_list_with n_primary ds] /\
    length (data (out_m1_index b)) = sum_list_with n_primary ds /\
    length (out_crystal_atom_idx b) = length ds /\
    (forall k s,
        ds !! k = Some s ->
        out_crystal_atom_idx b !! k
        = Some (mk [n_primary s]
                   (map Z.of_nat (seq (group_offset ds k) (n_primary s)))) /\
        group_offset ds (S k) = (group_offset ds k + n_primary s)%nat) /\
    concat (map data (out_crystal_atom_idx b))
    = map Z.of_nat (seq 0 (sum_list_with n_primary ds)).
Proof.
  intros Hne Hsh Hloc. eexists. split; [by apply (collate_pool_shaped a M L q T)|].
  cbn [out_nbr_fea_idx out_m1_index out_atom_fea out_crystal_atom_idx data shape].
  assert (Hm1 : forall s, s ∈ ds -> length (data (m1_index s)) = n_primary s).
  { intros s Hs. rewrite Forall_forall in Hsh.
    pose proof (shaped_m1_wf _ _ _ _ _ _ (Hsh s Hs)) as Hwf. unfold wf in Hwf.
    rewrite (shaped_m1 _ _ _ _ _ _ (Hsh s Hs)) in Hwf. simpl in Hwf. lia. }
  assert (Hgo : forall k, sum_list_with (fun s => length (data (m1_index s))) (take k ds)
                          = group_offset ds k).
  { intros k. unfold group_offset.
    assert (Hk : Forall (fun s => s ∈ ds) (take k ds)).
    { apply Forall_take, Forall_forall. auto. }
    induction Hk as [|s l Hs _ IH]; [done|]. simpl. by rewrite IH, Hm1. }
  repeat split.
  - intros k s i x Hk Hi. rewrite <- (nbr_start_rows a M L q T) by done.
    exact (shifted_lookup nbr_fea_idx (fun k => Z.of_nat (atom_offset ds k))
             ds k s i x Hk Hi).
  - intros k s i x Hk Hi. rewrite <- Hgo.
    exact (shifted_lookup m1_index (fun k => Z.of_nat (atom_offset ds k))
             ds k s i x Hk Hi).
  - apply (shifted_valid nbr_fea_idx).
    eapply Forall_impl; [exact Hloc|]. by intros s [H _].
  - apply (shifted_valid m1_index).
    eapply Forall_impl; [exact Hloc|]. by intros s [_ H].
  - change (map data ?l) with (data <$> l). rewrite fmap_imap.
    rewrite length_concat.
    change (list_sum (map ?f ?l)) with (list_sum (f <$> l)).
    rewrite fmap_imap. clear Hgo.
    assert (Hall : forall h : nat -> Sample F -> nat,
               (forall k s, s ∈ ds -> h k s = n_primary s) ->
               list_sum (imap h ds) = sum_list_with n_primary ds).
    { clear -ds. induction ds as [|s l IH]; intros h Hh; [done|].
      rewrite imap_cons. simpl. rewrite (Hh 0%nat s) by apply list_elem_of_here.
      f_equal. apply IH. intros k s' Hs'. by apply Hh, list_elem_of_further. }
    apply Hall. intros k s Hs. simpl. by rewrite length_map, Hm1.
  - by rewrite length_imap.
  - rewrite list_lookup_imap, H. simpl. unfold arange_plus.
    by rewrite seq_shift_of_nat.
  - by apply group_offset_next.
  - change (map data ?l) with (data <$> l). rewrite fmap_imap.
    rewrite <- (groups_partition ds 0). f_equal. apply imap_ext.
    intros k s _. simpl. by rewrite seq_shift_of_nat.
Qed.

(** C7, as the code has it. The grouping structure is a list of K ordered
    contiguous ranges over the primary-index axis: range [k] has the
    length of the primary index vector of sample [k], starts where range
    [k-1] ends, and the lengths sum to the length P of the primary-index
    axis of the batch (the atom axis has its own length N). *)
Theorem collate_pool_groups (a M L q T : nat) ds :
  ds <> [] ->
  Forall (shaped a M L q T) ds ->
  exists b,
    collate_pool ds = Ok b /\
    length (out_crystal_atom_idx b) = length ds /\
    (forall k s,
        ds !! k = Some s ->
        exists g,
          out_crystal_atom_idx b !! k = Some g /\
          shape g = [n_primary s] /\
          data g = map Z.of_nat (seq (group_offset ds k) (n_primary s))) /\
    sum_list_with (fun g => length (data g)) (out_crystal_atom_idx b)
    = sum_list_with n_primary ds /\
    shape (out_m1_index b) = [sum_list_with n_primary ds] /\
    shape (out_atom_fea b) = [sum_list_with n_atoms ds; a].
Proof.
  intros Hne Hsh. eexists. split; [by apply (collate_pool_shaped a M L q T)|].
  cbn [out_m1_index out_atom_fea out_crystal_atom_idx data shape].
  repeat split.
  - by rewrite length_imap.
  - intros k s Hk. eexists. rewrite list_lookup_imap, Hk. simpl.
    split; [reflexivity|]. split; [reflexivity|].
    unfold arange_plus, data. by rewrite seq_shift_of_nat.
  - assert (Hall : forall (off : nat -> Z) (l : list (Sample F)),
               sum_list_with (fun g => length (data g))
                 (imap (fun k s => arange_plus (n_primary s) (off k)) l)
               = sum_list_with n_primary l).
    { intros off l. revert off. induction l as [|s l IH]; intros off; [done|].
      rewrite imap_cons. simpl. rewrite length_map, length_seq. f_equal.
      apply (IH (off ∘ S)). }
    apply (Hall (fun k => Z.of_nat (group_offset ds k))).
Qed.

(** C10. Given no samples, the collator fails: there is nothing to
    concatenate. *)
Theorem collate_pool_empty : collate_pool (@nil (Sample F)) = Raise RuntimeError.
Proof. reflexivity. Qed.

End WithFeatures.

Import Examples.

Lemma two_samples_shaped : Forall (shaped 2 2 1 1 1) two_samples.
Proof. repeat constructor. Qed.

Lemma two_samples_local : Forall indices_local two_samples.
Proof. repeat constructor; simpl; lia. Qed.

(** The theorem at a batch of a three-atom and a five-atom sample: the
    batch has eight atom rows. *)
Lemma collate_pool_offsets_witness :
  two_samples <> [] /\
  Forall (shaped 2 2 1 1 1) two_samples /\
  Forall indices_local two_samples /\
  exists b, collate_pool two_samples = Ok b /\
            shape (out_nbr_fea_idx b) = [8%nat; 2%nat].
Proof.
  split; [discriminate|]. split; [exact two_samples_shaped|].
  split; [exact two_samples_local|].
  destruct (collate_pool_offsets 2 2 1 1 1 two_samples)
    as (b & Hb & _ & _ & _ & Hs & _);
    [discriminate | exact two_samples_shaped | exact two_samples_local |].
  exists b. split; [exact Hb | exact Hs].
Defined.

(** In that batch the neighbor and primary indices of the second sample
    are its own shifted by three. *)
Example collate_pool_shift_by_three :
  exists b, collate_pool two_samples = Ok b /\
    data (out_nbr_fea_idx b)
    = data (nbr_fea_idx three_atoms)
      ++ map (fun x => x + 3) (data (nbr_fea_idx five_atoms)) /\
    data (out_m1_index b)
    = data (m1_index three_atoms)
      ++ map (fun x => x + 3) (data (m1_index five_atoms)) /\
    map data (out_crystal_atom_idx b) = [[0; 1]; [2; 3; 4]].
Proof. eexists. split; [reflexivity|]. repeat split. Qed.

Lemma collate_pool_groups_witness :
  two_samples <> [] /\
  Forall (shaped 2 2 1 1 1) two_samples /\
  exists b, collate_pool two_samples = Ok b /\
            length (out_crystal_atom_idx b) = 2%nat.
Proof.
  split; [discriminate|]. split; [exact two_samples_shaped|].
  destruct (collate_pool_groups 2 2 1 1 1 two_samples)
    as (b & Hb & Hlen & _); [discriminate | exact two_samples_shaped |].
  exists b. split; [exact Hb | exact Hlen].
Defined.

(** C7, as stated, fails: for the batch of the single three-atom sample
    the groups hold two rows in all, while the flattened atom axis has
    three. *)
Lemma collate_pool_groups_not_atom_rows :
  exists b,
    collate_pool [three_atoms] = Ok b /\
    shape (out_atom_fea b) = [3%nat; 2%nat] /\
    sum_list_with (fun g => length (data g)) (out_crystal_atom_idx b) = 2%nat /\
    sum_list_with (fun g => length (data g)) (out_crystal_atom_idx b)
    <> sum_list_with n_atoms [three_atoms].
Proof. eexists. split; [reflexivity|]. repeat split. discriminate. Qed.

End CollateFacts.

(** ** The Gaussian radial basis *)

Module GaussianDistanceFacts.

Import GaussianDistance.

Local Open Scope R_scope.

Lemma ceil_IZR (z : Z) : ceil (IZR z) = z.
Proof.
  unfold ceil. rewrite <- opp_IZR.
  rewrite <- (tech_up (IZR (- z)) (- z + 1)).
  - lia.
  - rewrite plus_IZR. lra.
  - rewrite plus_IZR. lra.
Qed.

(** The two assertions of the constructor. *)
Lemma init_asserts dmin dmax step var :
  dmin >= dmax \/ dmax - dmin <= step ->
  init dmin dmax step var = Raise AssertionError.
Proof.
  intros H. unfold init.
  destruct (Rlt_dec dmin dmax) as [Hlt|]; [|done].
  destruct (Rgt_dec (dmax - dmin) step) as [Hgt|]; [|done].
  destruct H; lra.
Qed.

(** Past the assertions the constructor builds the filter, which needs a
    step other than zero. *)
Lemma init_valid dmin dmax step var :
  dmin < dmax -> dmax - dmin > step ->
  init dmin dmax step var =
    if Req_dec_T step 0 then Raise ZeroDivisionError
    else Ok (mk (map (fun i => dmin + INR i * step)
                     (seq 0 (Z.to_nat (ceil ((dmax + step - dmin) / step)))))
                (match var with None => step | Some v => v end)).
Proof.
  intros Hlt Hgt. unfold init, np_arange.
  destruct (Rlt_dec dmin dmax); [|done].
  destruct (Rgt_dec (dmax - dmin) step); [|done].
  by destruct (Req_dec_T step 0).
Qed.

(** A constructed expander has a step other than zero, centers
    [dmin + k * step], and the variance it was given, the step by default. *)
Lemma init_inv dmin dmax step var g :
  init dmin dmax step var = Ok g ->
  step <> 0 /\
  GaussianDistance.var g = match var with None => step | Some v => v end /\
  forall k c, filter g !! k = Some c -> c = dmin + INR k * step.
Proof.
  unfold init, np_arange.
  destruct (Rlt_dec dmin dmax); [|done].
  destruct (Rgt_dec (dmax - dmin) step); [|done].
  destruct (Req_dec_T step 0); [done|]. cbn. intros [= <-]. cbn.
  split; [done|]. split; [done|]. intros k c Hk.
  change (map ?f ?l) with (f <$> l) in Hk. rewrite list_lookup_fmap in Hk.
  destruct (seq 0 _ !! k) as [i|] eqn:Hi; [|done].
  apply lookup_seq in Hi as [-> _]. simpl in Hk. by injection Hk as <-.
Qed.

Lemma channel_finite (g : t) d c :
  GaussianDistance.var g <> 0 ->
  channel g d c = Fin (exp (- (d - c) ^ 2 / GaussianDistance.var g ^ 2)).
Proof.
  intros Hv. unfold channel, np_div.
  destruct (Req_dec_T (GaussianDistance.var g ^ 2) 0) as [H0|]; [|done].
  exfalso. apply Hv. simpl in H0. nra.
Qed.

Lemma channel_zero_variance (g : t) c :
  GaussianDistance.var g = 0 -> channel g c c = NaN.
Proof.
  intros Hv. unfold channel, np_div. rewrite Hv.
  destruct (Req_dec_T (0 ^ 2) 0) as [_|H]; [|exfalso; apply H; lra].
  destruct (Req_dec_T (- (c - c) ^ 2) 0) as [_|H]; [done|].
  exfalso. apply H. simpl. lra.
Qed.

(** C8, as the code has it. Construction fails on the assertions when
    [dmin >= dmax] or [dmax - dmin <= step], whatever the other arguments,
    and so does the construction of the dataset object that owns the
    expander, before any sample can be asked of it; with [dmin < dmax],
    [dmax - dmin > step] and a step other than zero, construction
    succeeds. *)
Theorem init_bounds (dmin dmax step : R) (var : option R) :
  (dmin >= dmax \/ dmax - dmin <= step ->
   init dmin dmax step var = Raise AssertionError) /\
  (dmin < dmax -> dmax - dmin > step -> step <> 0 ->
   exists g, init dmin dmax step var = Ok g) /\
  (forall root_exists max_num_nbr metal_max_num_nbr metal_radius qradius qdmin qstep,
     dmin = Q2R qdmin -> dmax = Q2R qradius -> step = Q2R qstep ->
     dmin >= dmax \/ dmax - dmin <= step ->
     CIFData.init root_exists max_num_nbr metal_max_num_nbr metal_radius
              qradius qdmin qstep
     = Raise AssertionError).
Proof.
  split; [apply init_asserts|]. split.
  - intros Hlt Hgt Hstep. rewrite init_valid by done.
    destruct (Req_dec_T step 0); [done|]. by eexists.
  - intros re M mM mr qr qd qs -> -> -> H. unfold CIFData.init.
    destruct re; [|done]. by rewrite init_asserts.
Qed.

(** The theorem at [dmin = 0], [dmax = 6], [step = 1/5], the defaults of
    the dataset, and at the inverted bounds. *)
Lemma init_bounds_witness :
  (exists g, init 0 6 (1 / 5) None = Ok g) /\
  init 6 0 (1 / 5) None = Raise AssertionError.
Proof.
  destruct (init_bounds 0 6 (1 / 5) None) as (_ & Hok & _).
  destruct (init_bounds 6 0 (1 / 5) None) as (Hbad & _).
  split; [apply Hok; lra | apply Hbad; left; lra].
Defined.

(** C8, as stated, fails: bounds [dmin = 0 < dmax = 1] with
    [dmax - dmin = 1 > step = 0] pass both assertions, and construction
    fails all the same, on the zero step. *)
Lemma init_valid_bounds_zero_step :
  0 < 1 /\ 1 - 0 > 0 /\ init 0 1 0 None = Raise ZeroDivisionError /\
  ~ exists g, init 0 1 0 None = Ok g.
Proof.
  assert (H : init 0 1 0 None = Raise ZeroDivisionError).
  { rewrite init_valid by lra. by destruct (Req_dec_T 0 0). }
  split; [lra|]. split; [lra|]. split; [exact H|].
  intros [g Hg]. rewrite H in Hg. discriminate.
Qed.

Lemma expand_scalar (g : t) d :
  expand g (scalar d) = Tensor.mk [length (filter g)] (expand1 g d).
Proof. unfold expand, scalar. simpl. by rewrite app_nil_r. Qed.

(** C9, as the code has it. For an expander constructed with a variance
    other than zero (the default, the step, always is), expanding the
    center [k] of the filter gives 1 in channel [k], and for every distance
    [d] channel [k] is [exp(-(d - centers[k])^2 / variance^2)], with
    [centers[k] = dmin + k * step]. *)
Theorem expand_center (dmin dmax step : R) (var : option R) (g : t) :
  init dmin dmax step var = Ok g ->
  var <> Some 0 ->
  forall k c,
    filter g !! k = Some c ->
    c = dmin + INR k * step /\
    Tensor.data (expand g (scalar c)) !! k = Some (Fin 1) /\
    forall d,
      Tensor.data (expand g (scalar d)) !! k
      = Some (Fin (exp (- (d - c) ^ 2 / GaussianDistance.var g ^ 2))).
Proof.
  intros Hinit Hvar k c Hk.
  destruct (init_inv _ _ _ _ _ Hinit) as (Hstep & Hv & Hc).
  assert (Hnz : GaussianDistance.var g <> 0).
  { rewrite Hv. destruct var as [v|]; [|done]. intros ->. by apply Hvar. }
  split; [by apply Hc|].
  assert (Hd : forall d, Tensor.data (expand g (scalar d)) !! k
                         = Some (Fin (exp (- (d - c) ^ 2 / GaussianDistance.var g ^ 2)))).
  { intros d. rewrite expand_scalar. unfold expand1. cbn [Tensor.data].
    change (map ?f ?l) with (f <$> l).
    rewrite list_lookup_fmap, Hk. simpl. by rewrite channel_finite. }
  split; [|exact Hd].
  rewrite Hd. do 2 f_equal. rewrite <- exp_0. f_equal.
  unfold Rdiv. replace (c - c) with 0 by lra. simpl. lra.
Qed.

Lemma init_quarters var :
  init 0 1 (1 / 4) var
  = Ok (mk (map (fun i => 0 + INR i * (1 / 4)) (seq 0 5))
           (match var with None => 1 / 4 | Some v => v end)).
Proof.
  rewrite init_valid by lra.
  destruct (Req_dec_T (1 / 4) 0) as [H|_]; [lra|].
  replace ((1 + 1 / 4 - 0) / (1 / 4)) with (IZR 5) by lra.
  by rewrite ceil_IZR.
Qed.

(** The theorem at the expander with centers 0, 1/4, .., 1 and the default
    variance, at its third center. *)
Lemma expand_center_witness :
  exists g c,
    init 0 1 (1 / 4) None = Ok g /\
    filter g !! 2%nat = Some c /\
    Tensor.data (expand g (scalar c)) !! 2%nat = Some (Fin 1).
Proof.
  eexists. eexists. split; [apply init_quarters|]. split; [reflexivity|].
  refine (proj1 (proj2 (expand_center 0 1 (1 / 4) None _ (init_quarters None)
                          _ 2%nat _ eq_refl))).
  discriminate.
Defined.

(** C9, as stated, fails: the expander with centers 0, 1/4, .., 1 and
    variance 0 is constructed, and expanding its first center gives
    not-a-number in the first channel. *)
Lemma expand_center_zero_variance :
  exists g c,
    init 0 1 (1 / 4) (Some 0) = Ok g /\
    filter g !! 0%nat = Some c /\
    Tensor.data (expand g (scalar c)) !! 0%nat = Some NaN /\
    Tensor.data (expand g (scalar c)) !! 0%nat <> Some (Fin 1).
Proof.
  eexists. eexists. split; [apply init_quarters|]. split; [reflexivity|].
  rewrite expand_scalar. cbn [Tensor.data].
  assert (H : forall c,
             expand1 (mk (map (fun i => 0 + INR i * (1 / 4)) (seq 0 5)) 0) c
               !! 0%nat
             = Some (channel (mk (map (fun i => 0 + INR i * (1 / 4)) (seq 0 5)) 0)
                             c (0 + INR 0 * (1 / 4)))) by reflexivity.
  rewrite H, channel_zero_variance by reflexivity. split; [done|discriminate].
Qed.

(** The dataset objects of the examples are what the constructor returns
    for radius 6, [dmin = 0] and [step = 1]. *)
Example init_two_slots :
  CIFData.init true 2 2 8 6 0 1 = Ok Examples.two_slots /\
  CIFData.init true 10 16 8 6 0 1 = Ok Examples.defaults.
Proof.
  assert (H0 : Q2R 0 = 0) by (unfold Q2R; simpl; lra).
  assert (H1 : Q2R 1 = 1) by (unfold Q2R; simpl; lra).
  assert (H6 : Q2R 6 = 6) by (unfold Q2R; simpl; lra).
  assert (Hg : init (Q2R 0) (Q2R 6) (Q2R 1) None = Ok Examples.unit_steps).
  { rewrite init_valid by lra.
    destruct (Req_dec_T (Q2R 1) 0) as [H|_]; [lra|].
    replace ((Q2R 6 + Q2R 1 - Q2R 0) / Q2R 1) with (IZR 7) by (rewrite H0, H1, H6; lra).
    by rewrite ceil_IZR. }
  unfold CIFData.init. by rewrite Hg.
Qed.

End GaussianDistanceFacts.

(** ** The sample builder *)

Module CIFDataFacts.

Import Tensor Collate CIFData.

(** *** Sorting by distance *)

Lemma insert_by_distance_perm x l : Permutation (insert_by_distance x l) (x :: l).
Proof.
  induction l as [|y r IH]; simpl; [done|].
  destruct (Qle_bool (nn_distance x) (nn_distance y)); [done|].
  rewrite IH. apply perm_swap.
Qed.

Lemma sorted_perm nbrs : Permutation (sorted nbrs) nbrs.
Proof.
  induction nbrs as [|x r IH]; simpl; [done|].
  rewrite insert_by_distance_perm. by apply perm_skip.
Qed.

Lemma sorted_length nbrs : length (sorted nbrs) = length nbrs.
Proof. apply Permutation_length, sorted_perm. Qed.

Lemma insert_by_distance_ascending x l :
  ascending l -> ascending (insert_by_distance x l).
Proof.
  unfold ascending. induction l as [|y r IH]; intros Hl; simpl.
  - repeat constructor.
  - inversion Hl as [|? ? Hr Hy]; subst.
    destruct (Qle_bool (nn_distance x) (nn_distance y)) eqn:Hxy.
    + apply Qle_bool_iff in Hxy. constructor; [done|]. constructor; [done|].
      eapply Forall_impl; [exact Hy|]. intros z Hz. simpl in *.
      by eapply Qle_trans.
    + assert (Hyx : (nn_distance y <= nn_distance x)%Q).
      { apply Qlt_le_weak, Qnot_le_lt. intros H.
        apply Qle_bool_iff in H. congruence. }
      constructor; [by apply IH|].
      eapply Permutation_Forall; [symmetry; apply insert_by_distance_perm|].
      by constructor.
Qed.

Lemma sorted_ascending nbrs : ascending (sorted nbrs).
Proof.
  induction nbrs as [|x r IH]; simpl; [constructor|].
  by apply insert_by_distance_ascending.
Qed.

(** *** Rows of fixed length *)

Lemma idx_row_length cap nbr : length (idx_row cap nbr) = cap.
Proof.
  unfold idx_row. destruct (length nbr <? cap)%nat eqn:H.
  - apply Nat.ltb_lt in H. rewrite length_app, length_map, length_replicate. lia.
  - apply Nat.ltb_ge in H. rewrite length_map, length_take. lia.
Qed.

Lemma dist_row_length cap pad nbr : length (dist_row cap pad nbr) = cap.
Proof.
  unfold dist_row. destruct (length nbr <? cap)%nat eqn:H.
  - apply Nat.ltb_lt in H. rewrite length_app, length_map, length_replicate. lia.
  - apply Nat.ltb_ge in H. rewrite length_map, length_take. lia.
Qed.

(** An entry of a row of indices is the padding index 0 or the index of
    one of the neighbors. *)
Lemma idx_row_elem cap nbr z :
  z ∈ idx_row cap nbr -> z = 0 \/ exists x, x ∈ nbr /\ z = nn_index x.
Proof.
  unfold idx_row. destruct (length nbr <? cap)%nat.
  - rewrite elem_of_app. intros [H|H].
    + right. change (map ?f ?l) with (f <$> l) in H.
      apply list_elem_of_fmap in H as (x & -> & Hx). eauto.
    + left. by apply elem_of_replicate in H as [-> _].
  - intros H. right. change (map ?f ?l) with (f <$> l) in H.
    apply list_elem_of_fmap in H as (x & -> & Hx).
    exists x. split; [|done]. by eapply subseteq_take.
Qed.

Lemma nth_seq_self {A : Type} (d : A) (row : list A) :
  map (fun j => nth j row d) (seq 0 (length row)) = row.
Proof.
  induction row as [|x r IH]; [done|]. simpl. f_equal.
  rewrite <- seq_shift, map_map. exact IH.
Qed.

(** The assertion of the loop that fills [M_idx] holds, and the loop
    appends the rows as they are. *)
Lemma flatten_rows_ok cap rows :
  Forall (fun row => length row = cap) rows ->
  flatten_rows cap rows = Ok (concat rows).
Proof.
  induction 1 as [|row rest Hrow _ IH]; [done|]. simpl.
  rewrite IH. apply Nat.eqb_eq in Hrow as Heq. rewrite Heq. cbn.
  by rewrite <- Hrow, nth_seq_self.
Qed.

(** *** The scan for metal atoms *)

Lemma elem_of_scan_metals ss :
  forall base z,
    z ∈ scan_metals base ss <->
    exists i s, z = Z.of_nat (base + i) /\ ss !! i = Some s /\ is_metal s = true.
Proof.
  induction ss as [|s0 ss IH]; intros base z; simpl.
  - split; [by intros ?%elem_of_nil|]. by intros (i & s & _ & ? & _).
  - assert (Hrest : z ∈ scan_metals (S base) ss <->
                    exists i s, z = Z.of_nat (base + S i)
                                /\ ss !! i = Some s /\ is_metal s = true).
    { rewrite IH. split; intros (i & s & -> & H1 & H2); exists i, s;
        (split; [f_equal; lia|done]). }
    destruct (is_metal s0) eqn:Hm.
    + rewrite elem_of_cons, Hrest. split.
      * intros [->|(i & s & -> & H1 & H2)].
        -- exists 0%nat, s0. by rewrite Nat.add_0_r.
        -- by exists (S i), s.
      * intros ([|i] & s & -> & H1 & H2).
        -- left. by rewrite Nat.add_0_r.
        -- right. by exists i, s.
    + rewrite Hrest. split.
      * intros (i & s & -> & H1 & H2). by exists (S i), s.
      * intros ([|i] & s & -> & H1 & H2).
        -- simpl in H1. injection H1 as ->. congruence.
        -- by exists i, s.
Qed.

(** The metal scan and the metal neighbor scan visit the same atoms. *)
Lemma scan_metal_neighs_metals crystal r ss :
  forall base,
    scan_metal_neighs crystal r base ss
    = map (fun z => get_neighbors crystal (Z.to_nat z) r) (scan_metals base ss).
Proof.
  induction ss as [|s ss IH]; intros base; simpl; [done|].
  destruct (is_metal s); simpl; rewrite IH; [|done].
  by rewrite Nat2Z.id.
Qed.

Lemma scan_metals_none ss :
  forall base,
    (forall s, s ∈ ss -> is_metal s = false) -> scan_metals base ss = [].
Proof.
  induction ss as [|s ss IH]; intros base H; simpl; [done|].
  rewrite (H s) by apply list_elem_of_here. apply IH.
  intros s' Hs'. by apply H, list_elem_of_further.
Qed.

(** *** What [__getitem__] returns *)

Lemma M_idx_ok self crystal :
  M_idx self crystal
  = Ok (concat (map (fun z =>
          idx_row (metal_max_num_nbr self)
            (sorted (get_neighbors crystal (Z.to_nat z) (metal_radius self))))
          (metal_index crystal))).
Proof.
  unfold M_idx, metal_index. rewrite scan_metal_neighs_metals, !map_map.
  apply flatten_rows_ok, Forall_map, Forall_forall. intros z _.
  apply idx_row_length.
Qed.

(** With a metal atom in the structure, the sample is built. *)
Lemma getitem_ok self cif_id target m2_feature crystal :
  metal_index crystal <> [] ->
  getitem self cif_id target m2_feature crystal
  = Ok (mkSample
          (tmap of_Z (of_rows (atom_fea_rows crystal)))
          (GaussianDistance.expand (gdf self)
             (tmap Q2R (of_rows (nbr_fea_rows self crystal))))
          (of_rows (nbr_fea_idx_rows self crystal))
          (of_list (M1_idx
             (concat (map (fun z =>
                idx_row (metal_max_num_nbr self)
                  (sorted (get_neighbors crystal (Z.to_nat z) (metal_radius self))))
                (metal_index crystal)))
             (metal_index crystal)))
          (of_list (map of_Q m2_feature))
          (of_list (map of_Q target))
          cif_id).
Proof.
  intros Hm. unfold getitem. rewrite M_idx_ok.
  destruct (metal_index crystal); [done|]. reflexivity.
Qed.

Lemma of_rows_shape {A : Type} (rows : list (list A)) M :
  rows <> [] ->
  Forall (fun row => length row = M) rows ->
  of_rows rows = Tensor.mk [length rows; M] (concat rows).
Proof.
  intros Hne Hall. destruct rows as [|row rest]; [done|].
  inversion Hall; subst. reflexivity.
Qed.

Lemma rows_start {A : Type} (rows : list (list A)) M i :
  Forall (fun row => length row = M) rows ->
  (i <= length rows)%nat ->
  sum_list_with (@length A) (take i rows) = (i * M)%nat.
Proof.
  intros Hall. revert i. induction Hall as [|row rest Hrow _ IH]; intros i Hi.
  - simpl in Hi. by replace i with 0%nat by lia.
  - destruct i as [|i]; [done|]. simpl in *. rewrite IH by lia. lia.
Qed.

Lemma metal_index_sites crystal :
  metal_index crystal <> [] -> sites crystal <> [].
Proof. unfold metal_index. by destruct (sites crystal). Qed.

(** C2. In every constructed sample, the neighbor index matrix has
    [max_num_nbr] slots for every atom and the neighbor feature tensor has
    [max_num_nbr] slots of [len(filter)] channels; the distances that are
    expanded and the indices are, for an atom with fewer than
    [max_num_nbr] neighbors, those of all its neighbors by ascending
    distance followed by index 0 and distance [radius + 1] in the missing
    slots, and for an atom with at least [max_num_nbr] neighbors those of
    the first [max_num_nbr] by ascending distance. *)
Theorem getitem_neighbor_slots self cif_id target m2_feature crystal :
  metal_index crystal <> [] ->
  length (get_all_neighbors crystal (radius self)) = length (sites crystal) ->
  exists s,
    getitem self cif_id target m2_feature crystal = Ok s /\
    shape (nbr_fea_idx s) = [length (sites crystal); max_num_nbr self] /\
    shape (nbr_fea s)
    = [length (sites crystal); max_num_nbr self;
       length (GaussianDistance.filter (gdf self))] /\
    exists distances : list (list Q),
      nbr_fea s = GaussianDistance.expand (gdf self) (tmap Q2R (of_rows distances)) /\
      length distances = length (sites crystal) /\
      forall i nbrs,
        get_all_neighbors crystal (radius self) !! i = Some nbrs ->
        exists irow drow,
          distances !! i = Some drow /\
          length irow = max_num_nbr self /\
          length drow = max_num_nbr self /\
          (forall j x, irow !! j = Some x ->
             data (nbr_fea_idx s) !! (i * max_num_nbr self + j)%nat = Some x) /\
          Permutation (sorted nbrs) nbrs /\
          ascending (sorted nbrs) /\
          ((length nbrs < max_num_nbr self)%nat ->
             irow = map nn_index (sorted nbrs)
                    ++ replicate (max_num_nbr self - length nbrs) 0 /\
             drow = map nn_distance (sorted nbrs)
                    ++ replicate (max_num_nbr self - length nbrs)
                         (radius self + 1)%Q) /\
          ((max_num_nbr self <= length nbrs)%nat ->
             irow = map nn_index (take (max_num_nbr self) (sorted nbrs)) /\
             drow = map nn_distance (take (max_num_nbr self) (sorted nbrs))).
Proof.
  intros Hm Hlen. eexists. split; [by apply getitem_ok|].
  cbn [nbr_fea_idx nbr_fea].
  set (M := max_num_nbr self).
  assert (Hsites : sites crystal <> []) by by apply metal_index_sites.
  assert (Hall : all_nbrs self crystal <> []).
  { unfold all_nbrs. destruct (get_all_neighbors crystal (radius self));
      [|done]. by destruct (sites crystal). }
  assert (Hi : Forall (fun row => length row = M) (nbr_fea_idx_rows self crystal)).
  { apply Forall_map, Forall_forall. intros. apply idx_row_length. }
  assert (Hd : Forall (fun row => length row = M) (nbr_fea_rows self crystal)).
  { apply Forall_map, Forall_forall. intros. apply dist_row_length. }
  assert (Hil : length (nbr_fea_idx_rows self crystal) = length (sites crystal)).
  { unfold nbr_fea_idx_rows, all_nbrs. by rewrite !length_map. }
  assert (Hdl : length (nbr_fea_rows self crystal) = length (sites crystal)).
  { unfold nbr_fea_rows, all_nbrs. by rewrite !length_map. }
  rewrite (of_rows_shape (nbr_fea_idx_rows self crystal) M),
          (of_rows_shape (nbr_fea_rows self crystal) M); try done.
  2: { unfold nbr_fea_rows. by destruct (all_nbrs self crystal). }
  2: { unfold nbr_fea_idx_rows. by destruct (all_nbrs self crystal). }
  cbn [shape data GaussianDistance.expand tmap app]. rewrite Hil, Hdl.
  split; [done|]. split; [done|].
  exists (nbr_fea_rows self crystal). split.
  { rewrite (of_rows_shape (nbr_fea_rows self crystal) M); try done.
    - by rewrite Hdl.
    - unfold nbr_fea_rows. by destruct (all_nbrs self crystal). }
  split; [done|]. intros i nbrs Hnbrs.
  exists (idx_row M (sorted nbrs)), (dist_row M (radius self + 1)%Q (sorted nbrs)).
  assert (Hrow : nbr_fea_idx_rows self crystal !! i = Some (idx_row M (sorted nbrs))).
  { unfold nbr_fea_idx_rows, all_nbrs. change (map ?f ?l) with (f <$> l).
    by rewrite !list_lookup_fmap, Hnbrs. }
  split.
  { unfold nbr_fea_rows, all_nbrs. change (map ?f ?l) with (f <$> l).
    by rewrite !list_lookup_fmap, Hnbrs. }
  split; [apply idx_row_length|]. split; [apply dist_row_length|]. split.
  { intros j x Hj.
    rewrite <- (rows_start (nbr_fea_idx_rows self crystal) M i Hi).
    - by eapply ListFacts.lookup_concat.
    - apply lookup_lt_Some in Hrow. lia. }
  split; [apply sorted_perm|]. split; [apply sorted_ascending|].
  unfold idx_row, dist_row. rewrite sorted_length. split.
  - intros Hlt. apply Nat.ltb_lt in Hlt. by rewrite Hlt.
  - intros Hge. apply Nat.ltb_ge in Hge. by rewrite Hge.
Qed.

(** The theorem at the zinc atom between a carbon and an oxygen, with two
    slots per atom. *)
Lemma getitem_neighbor_slots_witness :
  metal_index Examples.zinc_between <> [] /\
  exists s,
    getitem Examples.two_slots "zinc" [1%Q] [] Examples.zinc_between = Ok s /\
    shape (nbr_fea_idx s) = [3%nat; 2%nat].
Proof.
  split; [discriminate|].
  destruct (getitem_neighbor_slots Examples.two_slots "zinc" [1%Q] []
              Examples.zinc_between) as (s & Hs & Hshape & _);
    [discriminate | reflexivity |].
  exists s. split; [exact Hs | exact Hshape].
Defined.

(** There the carbon and the oxygen have one neighbor each and get index 0
    and distance [6 + 1] in the second slot; the zinc has its two neighbors
    by ascending distance. *)
Example zinc_between_rows :
  nbr_fea_idx_rows Examples.two_slots Examples.zinc_between
  = [[1; 0]; [2; 0]; [1; 0]] /\
  nbr_fea_rows Examples.two_slots Examples.zinc_between
  = [[21 # 10; 6 + 1]; [2; 21 # 10]; [2; 6 + 1]]%Q.
Proof. split; reflexivity. Qed.

(** *** The primary index vector *)

Lemma M1_idx_elem M_idx metal_index z :
  z ∈ M1_idx M_idx metal_index <-> z ∈ M_idx \/ z ∈ metal_index.
Proof.
  unfold M1_idx. by rewrite elem_of_elements, elem_of_union, !elem_of_list_to_set.
Qed.

Lemma M1_idx_NoDup M_idx metal_index : NoDup (M1_idx M_idx metal_index).
Proof. apply NoDup_elements. Qed.

Lemma M1_idx_length M_idx metal_index :
  (length (M1_idx M_idx metal_index) <= length M_idx + length metal_index)%nat.
Proof.
  rewrite <- length_app. apply submseteq_length, NoDup_submseteq.
  - apply M1_idx_NoDup.
  - intros z Hz. apply elem_of_app. by apply M1_idx_elem.
Qed.

Lemma M_idx_length cap (f : Z -> list Neighbor) (metal_index : list Z) :
  length (concat (map (fun z => idx_row cap (f z)) metal_index))
  = (cap * length metal_index)%nat.
Proof.
  induction metal_index as [|z l IH]; simpl; [lia|].
  rewrite length_app, idx_row_length, IH. lia.
Qed.

(** C3. For a structure with a metal atom, whose neighbor search returns
    indices of its atoms, the primary index vector of the sample holds only
    indices of atoms of the structure, holds the index of every metal atom,
    and holds no index twice. *)
Theorem getitem_primary_index self cif_id target m2_feature crystal :
  metal_index crystal <> [] ->
  (forall i x, x ∈ get_neighbors crystal i (metal_radius self) ->
     0 <= nn_index x < Z.of_nat (length (sites crystal))) ->
  exists s,
    getitem self cif_id target m2_feature crystal = Ok s /\
    Forall (fun z => 0 <= z < Z.of_nat (length (sites crystal)))
           (data (m1_index s)) /\
    (forall i, metal_at crystal i -> Z.of_nat i ∈ data (m1_index s)) /\
    NoDup (data (m1_index s)).
Proof.
  intros Hm Hnbr. eexists. split; [by apply getitem_ok|].
  cbn [m1_index of_list data].
  assert (Hmetal : forall z, z ∈ metal_index crystal ->
                     0 <= z < Z.of_nat (length (sites crystal))).
  { intros z Hz. apply elem_of_scan_metals in Hz as (i & s & -> & Hi & _).
    apply lookup_lt_Some in Hi. lia. }
  split; [|split].
  - apply Forall_forall. intros z Hz. apply M1_idx_elem in Hz as [Hz|Hz].
    + apply list_elem_of_In, in_concat in Hz as (row & Hrow & Hz).
      apply list_elem_of_In in Hrow, Hz.
      change (map ?f ?l) with (f <$> l) in Hrow.
      apply list_elem_of_fmap in Hrow as (m & -> & Hmz).
      apply idx_row_elem in Hz as [->|(x & Hx & ->)].
      * specialize (Hmetal m Hmz). lia.
      * apply (Hnbr (Z.to_nat m)). by rewrite <- sorted_perm.
    + by apply Hmetal.
  - intros i (site & Hi & Hsite). apply M1_idx_elem. right.
    apply elem_of_scan_metals. by exists i, site.
  - apply M1_idx_NoDup.
Qed.

Lemma getitem_primary_index_witness :
  metal_index Examples.zinc_between <> [] /\
  exists s,
    getitem Examples.two_slots "zinc" [1%Q] [] Examples.zinc_between = Ok s /\
    NoDup (data (m1_index s)).
Proof.
  split; [discriminate|].
  destruct (getitem_primary_index Examples.two_slots "zinc" [1%Q] []
              Examples.zinc_between) as (s & Hs & _ & _ & Hnd).
  - discriminate.
  - intros [|[|i]] x Hx; simpl in Hx; try by apply elem_of_nil in Hx.
    apply elem_of_cons in Hx as [->|Hx]; [simpl; lia|].
    apply list_elem_of_singleton in Hx as ->. simpl. lia.
  - exists s. split; [exact Hs | exact Hnd].
Defined.

(** C4. For a structure without a metal atom, [__getitem__] returns no
    sample: it leaves through [sys.exit], which unwinds the run. *)
Theorem getitem_no_metal self cif_id target m2_feature crystal :
  (forall s, s ∈ sites crystal -> is_metal s = false) ->
  getitem self cif_id target m2_feature crystal = Raise (SystemExit 0).
Proof.
  intros H. unfold getitem, metal_index. by rewrite scan_metals_none.
Qed.

Lemma getitem_no_metal_witness :
  getitem Examples.defaults "carbon" [1%Q] [] Examples.no_metal
  = Raise (SystemExit 0).
Proof.
  apply getitem_no_metal. intros s Hs. simpl in Hs.
  apply elem_of_cons in Hs as [->|Hs]; [done|].
  by apply list_elem_of_singleton in Hs as ->.
Defined.

(** C5, as the code has it. The primary index vector of a sample has at
    most [(metal_max_num_nbr + 1) * n_metal] entries: [metal_max_num_nbr]
    neighbor slots for every metal atom, and the metal atom itself. *)
Theorem getitem_primary_length self cif_id target m2_feature crystal :
  metal_index crystal <> [] ->
  exists s,
    getitem self cif_id target m2_feature crystal = Ok s /\
    (length (data (m1_index s))
     <= (metal_max_num_nbr self + 1) * length (metal_index crystal))%nat.
Proof.
  intros Hm. eexists. split; [by apply getitem_ok|].
  cbn [m1_index of_list data].
  etransitivity; [apply M1_idx_length|].
  rewrite (M_idx_length (metal_max_num_nbr self)
             (fun z => sorted (get_neighbors crystal (Z.to_nat z) (metal_radius self)))).
  lia.
Qed.

Lemma getitem_primary_length_witness :
  metal_index Examples.zinc_between <> [] /\
  exists s,
    getitem Examples.two_slots "zinc" [1%Q] [] Examples.zinc_between = Ok s /\
    (length (data (m1_index s)) <= 3)%nat.
Proof.
  split; [discriminate|].
  destruct (getitem_primary_length Examples.two_slots "zinc" [1%Q] []
              Examples.zinc_between) as (s & Hs & Hlen); [discriminate|].
  exists s. split; [exact Hs | exact Hlen].
Defined.

(** C5, as stated, fails: with two slots per metal atom, the zinc atom
    between its two neighbors gives a primary index vector of three
    entries, more than [2 * 1]. *)
Lemma getitem_primary_length_exceeds :
  exists s,
    getitem Examples.two_slots "zinc" [1%Q] [] Examples.zinc_between = Ok s /\
    length (metal_index Examples.zinc_between) = 1%nat /\
    metal_max_num_nbr Examples.two_slots = 2%nat /\
    length (data (m1_index s)) = 3%nat /\
    ~ (length (data (m1_index s))
       <= metal_max_num_nbr Examples.two_slots
          * length (metal_index Examples.zinc_between))%nat.
Proof.
  eexists. split; [apply getitem_ok; discriminate|].
  cbn [m1_index of_list data].
  assert (H : length (M1_idx
                (concat (map (fun z =>
                   idx_row (metal_max_num_nbr Examples.two_slots)
                     (sorted (get_neighbors Examples.zinc_between (Z.to_nat z)
                                (metal_radius Examples.two_slots))))
                   (metal_index Examples.zinc_between)))
                (metal_index Examples.zinc_between)) = 3%nat)
    by (vm_compute; reflexivity).
  rewrite H. repeat split. simpl. lia.
Qed.

(** C6, as the code has it. For a structure whose one metal atom, atom
    [i], has no neighbor within [metal_radius], the primary index vector
    holds [i] and, when there is a slot to pad, the padding index 0, each
    once: one entry when [i = 0] or [metal_max_num_nbr = 0], two
    otherwise. *)
Theorem getitem_single_metal self cif_id target m2_feature crystal (i : nat) :
  metal_index crystal = [Z.of_nat i] ->
  get_neighbors crystal i (metal_radius self) = [] ->
  exists s,
    getitem self cif_id target m2_feature crystal = Ok s /\
    (forall z, z ∈ data (m1_index s) <->
               z = Z.of_nat i \/ (z = 0 /\ metal_max_num_nbr self <> 0%nat)) /\
    NoDup (data (m1_index s)) /\
    length (data (m1_index s))
    = if decide (i = 0%nat \/ metal_max_num_nbr self = 0%nat) then 1%nat else 2%nat.
Proof.
  intros Hm Hnone. eexists. split; [apply getitem_ok; by rewrite Hm|].
  cbn [m1_index of_list data]. rewrite Hm. cbn [map concat].
  rewrite Nat2Z.id, Hnone, app_nil_r.
  assert (Hrow : idx_row (metal_max_num_nbr self) (sorted [])
                 = replicate (metal_max_num_nbr self) 0).
  { unfold idx_row. simpl. destruct (metal_max_num_nbr self); [done|].
    by rewrite Nat.sub_0_r. }
  rewrite Hrow.
  assert (Hmem : forall z,
            z ∈ M1_idx (replicate (metal_max_num_nbr self) 0) [Z.of_nat i] <->
            z = Z.of_nat i \/ (z = 0 /\ metal_max_num_nbr self <> 0%nat)).
  { intros z. rewrite M1_idx_elem, elem_of_replicate, list_elem_of_singleton.
    tauto. }
  split; [exact Hmem|]. split; [apply M1_idx_NoDup|].
  destruct (decide (i = 0%nat \/ metal_max_num_nbr self = 0%nat)) as [Hone|Htwo].
  - apply (Permutation_length (l' := [Z.of_nat i])).
    apply NoDup_Permutation; [apply M1_idx_NoDup|apply NoDup_singleton|].
    intros z. rewrite Hmem, list_elem_of_singleton.
    split; [|by left]. intros [-> | [-> Hcap]]; [done|].
    destruct Hone as [->|Hc]; [done|]. by destruct Hcap.
  - apply (Permutation_length (l' := [0; Z.of_nat i])).
    apply NoDup_Permutation; [apply M1_idx_NoDup| |].
    + apply NoDup_cons. split; [|apply NoDup_singleton].
      rewrite list_elem_of_singleton. intros H. apply Htwo. left. lia.
    + intros z. rewrite Hmem, elem_of_cons, list_elem_of_singleton.
      split; [intros [-> | [-> _]]; auto|].
      intros [-> | ->]; [|by left]. right. split; [done|]. intros H.
      apply Htwo. by right.
Qed.

Lemma getitem_single_metal_witness :
  exists s,
    getitem Examples.defaults "iron" [1%Q] [] Examples.lone_iron = Ok s /\
    length (data (m1_index s)) = 2%nat.
Proof.
  destruct (getitem_single_metal Examples.defaults "iron" [1%Q] []
              Examples.lone_iron 1) as (s & Hs & _ & _ & Hlen);
    [reflexivity | reflexivity |].
  exists s. split; [exact Hs | exact Hlen].
Defined.

(** C6, as stated, fails: the iron atom at index 1, the only metal atom
    and without a neighbor, gives the primary index vector of the two
    entries 0 and 1. *)
Lemma getitem_single_metal_two_entries :
  exists s,
    getitem Examples.defaults "iron" [1%Q] [] Examples.lone_iron = Ok s /\
    metal_index Examples.lone_iron = [1] /\
    get_neighbors Examples.lone_iron 1 (metal_radius Examples.defaults) = [] /\
    length (data (m1_index s)) = 2%nat /\
    length (data (m1_index s)) <> 1%nat /\
    0 ∈ data (m1_index s).
Proof.
  eexists. split; [apply getitem_ok; discriminate|].
  cbn [m1_index of_list data].
  assert (H : M1_idx
                (concat (map (fun z =>
                   idx_row (metal_max_num_nbr Examples.defaults)
                     (sorted (get_neighbors Examples.lone_iron (Z.to_nat z)
                                (metal_radius Examples.defaults))))
                   (metal_index Examples.lone_iron)))
                (metal_index Examples.lone_iron) ≡ₚ [0; 1])
    by (vm_compute; apply perm_swap).
  rewrite H. repeat split; [discriminate|]. apply list_elem_of_here.
Qed.

End CIFDataFacts.

(** * Further properties of the code *)

(** ** [torch.cat] and [torch.stack] as the collator uses them *)

Module TensorProps.

Import Tensor TensorFacts.

Section Shapes.

Context {A : Type}.
Implicit Types (x r : Tensor.t A) (xs : list (Tensor.t A)).

Lemma keep_iff x : keep x = true <-> shape x <> [0%nat].
Proof.
  unfold keep, legacy_empty, shape_eqb.
  rewrite negb_true_iff, bool_decide_eq_false. tauto.
Qed.

Lemma numel_cons n tl : numel (n :: tl) = (n * numel tl)%nat.
Proof. reflexivity. Qed.

Lemma length_concat_data tl xs :
  Forall wf xs ->
  Forall (fun x => exists n, shape x = n :: tl) xs ->
  length (concat (map data xs)) = (sum_list (heads xs) * numel tl)%nat.
Proof.
  induction 1 as [|x xs Hx _ IH]; intros Hsh; [done|].
  inversion Hsh as [|? ? [n Hn] Hrest]; subst. simpl.
  rewrite length_app, IH by done. unfold wf in Hx. rewrite Hx, Hn. simpl. lia.
Qed.

Lemma length_concat_same sh xs :
  (forall x, x ∈ xs -> shape x = sh) ->
  Forall wf xs ->
  length (concat (map data xs)) = (length xs * numel sh)%nat.
Proof.
  intros Hsame Hwf. induction Hwf as [|x xs Hx _ IH]; [done|].
  cbn [map concat length]. rewrite length_app, IH.
  - unfold wf in Hx. rewrite Hx, (Hsame x) by apply list_elem_of_here. lia.
  - intros y Hy. by apply Hsame, list_elem_of_further.
Qed.

Lemma cat_raise xs e : cat xs = Raise e -> e = RuntimeError.
Proof.
  unfold cat. destruct xs as [|x0 xs0]; [by intros [= <-]|].
  destruct (List.filter keep (x0 :: xs0)) as [|x rest]; [done|].
  destruct (shape x); [by intros [= <-]|].
  destruct (forallb _ rest); [done | by intros [= <-]].
Qed.

Lemma stack_raise xs e : stack xs = Raise e -> e = RuntimeError.
Proof.
  unfold stack. destruct xs as [|x rest]; [by intros [= <-]|].
  destruct (forallb _ rest); [done | by intros [= <-]].
Qed.

Lemma cat_success xs r :
  cat xs = Ok r ->
  xs <> [] /\
  (forall x, x ∈ xs -> shape x <> [0%nat] ->
     exists n, shape x = n :: tl (shape r)) /\
  hd 0%nat (shape r) = sum_list (heads xs) /\
  (Forall wf xs -> data r = concat (map data xs) /\ wf r).
Proof.
  intros Hcat. split; [by destruct xs|].
  assert (Hmem : forall x, x ∈ xs -> shape x <> [0%nat] ->
                   x ∈ List.filter keep xs).
  { intros x Hx Hk. apply list_elem_of_In, filter_In. split.
    - by apply list_elem_of_In.
    - by apply keep_iff. }
  pose proof (heads_filter_keep xs) as Hh.
  assert (Hd : Forall wf xs ->
               concat (map data (List.filter keep xs)) = concat (map data xs)).
  { intros Hwf. apply data_filter_keep. eapply Forall_impl; [exact Hwf|].
    intros x Hx Hk. by apply wf_legacy_empty. }
  assert (Hwfk : Forall wf xs -> Forall wf (List.filter keep xs)).
  { intros Hwf. apply Forall_forall. intros x Hx.
    apply list_elem_of_In, filter_In in Hx as [Hx _].
    rewrite Forall_forall in Hwf. by apply Hwf, list_elem_of_In. }
  unfold cat in Hcat. destruct xs as [|x0 xs0]; [done|].
  destruct (List.filter keep (x0 :: xs0)) as [|x rest] eqn:Hf.
  - injection Hcat as <-. cbn [shape data hd tail]. split; [|split].
    + intros x Hx Hk. specialize (Hmem x Hx Hk). by apply elem_of_nil in Hmem.
    + exact Hh.
    + intros Hwf. by rewrite <- (Hd Hwf).
  - destruct (shape x) as [|n tl] eqn:Hx; [done|].
    destruct (forallb (same_trailing tl) rest) eqn:Hall; [|done].
    injection Hcat as <-. cbn [shape data hd tail].
    assert (Hkept : Forall (fun y => exists m, shape y = m :: tl) (x :: rest)).
    { constructor; [by eexists|]. apply Forall_forall. intros y Hy.
      rewrite forallb_forall in Hall. specialize (Hall y).
      rewrite <- list_elem_of_In in Hall. specialize (Hall Hy).
      unfold same_trailing, shape_eqb in Hall.
      destruct (shape y) as [|m tl']; [done|].
      apply bool_decide_eq_true in Hall as ->. by eexists. }
    split; [|split].
    + intros y Hy Hk. rewrite Forall_forall in Hkept. by apply Hkept, Hmem.
    + exact Hh.
    + intros Hwf. split; [by apply Hd|]. unfold wf. cbn [shape data].
      rewrite numel_cons.
      exact (length_concat_data tl (x :: rest) (Hwfk Hwf) Hkept).
Qed.

Lemma stack_success xs r :
  stack xs = Ok r ->
  xs <> [] /\
  (forall x, x ∈ xs -> shape x = tl (shape r)) /\
  hd 0%nat (shape r) = length xs /\
  data r = concat (map data xs) /\
  (Forall wf xs -> wf r).
Proof.
  unfold stack. destruct xs as [|x rest]; [done|].
  destruct (forallb _ rest) eqn:Hall; [|done]. intros [= <-].
  cbn [shape data hd tail].
  assert (Hsame : forall y, y ∈ x :: rest -> shape y = shape x).
  { intros y Hy. apply elem_of_cons in Hy as [->|Hy]; [done|].
    rewrite forallb_forall in Hall. specialize (Hall y).
    rewrite <- list_elem_of_In in Hall. specialize (Hall Hy).
    unfold shape_eqb in Hall. by apply bool_decide_eq_true in Hall. }
  split; [done|]. split; [exact Hsame|]. split; [done|]. split; [done|].
  intros Hwf. unfold wf. cbn [shape data]. rewrite numel_cons.
  exact (length_concat_same (shape x) (x :: rest) Hsame Hwf).
Qed.

End Shapes.

End TensorProps.

(** ** The batch collator: errors, shapes and contents *)

Module CollateProps.

Import Tensor Collate ListFacts TensorFacts TensorProps CollateFacts.

Section WithFeatures.

Context {F : Type}.
Implicit Types (s : Sample F) (ds : list (Sample F)) (st : Locals F) (b : Batch F).

(** The loop stops at the first sample without a first axis to read, on
    the [IndexError] of [shape[0]]. *)
Lemma loop_raise ds :
  forall st e, loop st ds = Raise e -> e = IndexError /\ Exists no_first_axis ds.
Proof.
  induction ds as [|s ds IH]; intros st e Hloop; [done|].
  simpl in Hloop. unfold step, shape0 in Hloop.
  destruct (shape (atom_fea s)) as [|n tla] eqn:Ha.
  { injection Hloop as <-. split; [done|]. left. by left. }
  destruct (shape (m1_index s)) as [|m tlm] eqn:Hm.
  { injection Hloop as <-. split; [done|]. left. by right. }
  apply IH in Hloop as [-> Hex]. split; [done|]. by right.
Qed.


(** What a returned batch is made of. *)
Lemma collate_pool_parts ds b :
  collate_pool ds = Ok b ->
  cat (map atom_fea ds) = Ok (out_atom_fea b) /\
  cat (map nbr_fea ds) = Ok (out_nbr_fea b) /\
  cat (imap (fun k s => add_scalar (nbr_fea_idx s) (Z.of_nat (atom_offset ds k))) ds)
  = Ok (out_nbr_fea_idx b) /\
  cat (imap (fun k s => add_scalar (m1_index s) (Z.of_nat (atom_offset ds k))) ds)
  = Ok (out_m1_index b) /\
  out_crystal_atom_idx b
  = imap (fun k s => arange_plus (n_primary s) (Z.of_nat (group_offset ds k))) ds /\
  stack (map m2_feature ds) = Ok (out_m2_fea b) /\
  stack (map target ds) = Ok (out_target b) /\
  out_cif_ids b = map cif_id ds.
Proof.
  unfold collate_pool. destruct (loop init ds) as [st|e] eqn:Hloop; [|done].
  destruct (loop_fields ds init st Hloop) as (H1 & H2 & H3 & H4 & H5 & H6 & H7 & H8).
  cbn [init batch_atom_fea batch_nbr_fea batch_nbr_fea_idx batch_m1_index
       crystal_atom_idx batch_target batch_cif_ids batch_m2_fea base_idx
       base_m1_idx app] in H1, H2, H3, H4, H5, H6, H7, H8.
  cbn [mbind result_bind]. rewrite H1, H2, H3, H4, H5, H6, H7, H8.
  destruct (cat (map atom_fea ds)) as [a|] eqn:E1;
    destruct (cat (map nbr_fea ds)) as [n|] eqn:E2;
    (do 2 (match goal with
           | |- context [cat (imap ?f ds)] => destruct (cat (imap f ds)) eqn:?
           end));
    destruct (stack (map m2_feature ds)) as [m2|] eqn:E5;
    destruct (stack (map target ds)) as [tg|] eqn:E6;
    cbn [mbind result_bind]; try done.
  intros [= <-]. cbn. repeat split; assumption.
Qed.


Lemma elem_of_imap_2 {A : Type} (f : nat -> Sample F -> A) ds s :
  s ∈ ds -> exists k, ds !! k = Some s /\ f k s ∈ imap f ds.
Proof.
  intros Hs. apply list_elem_of_lookup_1 in Hs as [k Hk]. exists k.
  split; [done|]. apply (list_elem_of_lookup_2 _ k).
  by rewrite list_lookup_imap, Hk.
Qed.

Lemma elem_of_map_2 {A : Type} (f : Sample F -> A) ds s :
  s ∈ ds -> f s ∈ map f ds.
Proof. intros Hs. change (map f ds) with (f <$> ds). by apply list_elem_of_fmap_2. Qed.

Lemma wf_add_scalar (x : Tensor.t Z) c : wf x -> wf (add_scalar x c).
Proof. unfold wf, add_scalar. cbn [shape data]. by rewrite length_map. Qed.

Lemma wf_arange_plus m c : wf (arange_plus m c).
Proof.
  unfold wf, arange_plus. cbn [shape data].
  rewrite length_map, length_seq. simpl. lia.
Qed.

Lemma Forall_wf_imap (g : Sample F -> Tensor.t Z) (off : nat -> Z) ds :
  Forall (fun s => wf (g s)) ds ->
  Forall wf (imap (fun k s => add_scalar (g s) (off k)) ds).
Proof.
  intros Hwf. apply Forall_lookup_2. intros k x Hx.
  rewrite list_lookup_imap in Hx.
  destruct (ds !! k) as [s|] eqn:Hk; [|done]. injection Hx as <-.
  apply wf_add_scalar. rewrite Forall_lookup in Hwf. by eapply Hwf.
Qed.

(** X2. When the collator returns a batch, the samples agreed in shape:
    every [atom_fea], [nbr_fea], [nbr_fea_idx] and [m1_index] other than a
    one-dimensional empty tensor has the trailing sizes of its batch
    tensor, and every [m2_feature] and every [target] has the shape of a
    row of its stacked tensor. *)
Theorem collate_pool_uniform ds b :
  collate_pool ds = Ok b ->
  forall s, s ∈ ds ->
    (shape (atom_fea s) <> [0%nat] ->
       exists n, shape (atom_fea s) = n :: tl (shape (out_atom_fea b))) /\
    (shape (nbr_fea s) <> [0%nat] ->
       exists n, shape (nbr_fea s) = n :: tl (shape (out_nbr_fea b))) /\
    (shape (nbr_fea_idx s) <> [0%nat] ->
       exists n, shape (nbr_fea_idx s) = n :: tl (shape (out_nbr_fea_idx b))) /\
    (shape (m1_index s) <> [0%nat] ->
       exists n, shape (m1_index s) = n :: tl (shape (out_m1_index b))) /\
    shape (m2_feature s) = tl (shape (out_m2_fea b)) /\
    shape (target s) = tl (shape (out_target b)).
Proof.
  intros Hb s Hs.
  destruct (collate_pool_parts ds b Hb) as (H1 & H2 & H3 & H4 & _ & H6 & H7 & _).
  apply cat_success in H1 as (_ & H1 & _), H2 as (_ & H2 & _),
        H3 as (_ & H3 & _), H4 as (_ & H4 & _).
  apply stack_success in H6 as (_ & H6 & _), H7 as (_ & H7 & _).
  split; [apply (H1 (atom_fea s)); by apply elem_of_map_2|].
  split; [apply (H2 (nbr_fea s)); by apply elem_of_map_2|].
  split.
  { destruct (elem_of_imap_2
      (fun k s => add_scalar (nbr_fea_idx s) (Z.of_nat (atom_offset ds k))) ds s Hs)
      as (k & _ & Hk). exact (H3 _ Hk). }
  split.
  { destruct (elem_of_imap_2
      (fun k s => add_scalar (m1_index s) (Z.of_nat (atom_offset ds k))) ds s Hs)
      as (k & _ & Hk). exact (H4 _ Hk). }
  split; [apply (H6 (m2_feature s)) | apply (H7 (target s))];
    by apply elem_of_map_2.
Qed.

(** X3. Two samples whose neighbor index matrices have different numbers
    of columns cannot be collated: the collator raises. *)
Theorem collate_pool_mismatch ds s1 s2 (n1 n2 M1 M2 : nat) :
  s1 ∈ ds -> s2 ∈ ds ->
  shape (nbr_fea_idx s1) = [n1; M1] ->
  shape (nbr_fea_idx s2) = [n2; M2] ->
  M1 <> M2 ->
  exists e, collate_pool ds = Raise e /\ (e = IndexError \/ e = RuntimeError).
Proof.
  intros Hs1 Hs2 Hsh1 Hsh2 Hne.
  destruct (collate_pool ds) as [b|e] eqn:Hb.
  - exfalso.
    destruct (collate_pool_parts ds b Hb) as (_ & _ & H3 & _).
    apply cat_success in H3 as (_ & H3 & _).
    destruct (elem_of_imap_2
      (fun k s => add_scalar (nbr_fea_idx s) (Z.of_nat (atom_offset ds k))) ds s1 Hs1)
      as (k1 & _ & Hk1).
    destruct (elem_of_imap_2
      (fun k s => add_scalar (nbr_fea_idx s) (Z.of_nat (atom_offset ds k))) ds s2 Hs2)
      as (k2 & _ & Hk2).
    apply H3 in Hk1 as [m1 E1]; [|cbn [add_scalar shape]; by rewrite Hsh1].
    apply H3 in Hk2 as [m2 E2]; [|cbn [add_scalar shape]; by rewrite Hsh2].
    cbn [add_scalar shape] in E1, E2. rewrite Hsh1 in E1. rewrite Hsh2 in E2.
    congruence.
  - exists e. split; [done|].
    unfold collate_pool in Hb. destruct (loop init ds) as [st|e0] eqn:Hloop.
    + right. cbn [mbind result_bind] in Hb.
      destruct (cat (batch_atom_fea st)) eqn:E1;
        [|injection Hb as <-; by eapply cat_raise].
      destruct (cat (batch_nbr_fea st)) eqn:E2;
        [|injection Hb as <-; by eapply cat_raise].
      destruct (cat (batch_nbr_fea_idx st)) eqn:E3;
        [|injection Hb as <-; by eapply cat_raise].
      destruct (cat (batch_m1_index st)) eqn:E4;
        [|injection Hb as <-; by eapply cat_raise].
      destruct (stack (batch_m2_fea st)) eqn:E5;
        [|injection Hb as <-; by eapply stack_raise].
      destruct (stack (batch_target st)) eqn:E6;
        [|injection Hb as <-; by eapply stack_raise].
      done.
    + left. apply loop_raise in Hloop as [-> _]. by injection Hb as <-.
Qed.

(** X4. The collator copies the float tensors: the batch holds the atom
    features, the neighbor features, the auxiliary features and the
    targets of the samples, unchanged and in the order of the list, one
    row of auxiliary features, one target and one identifier per sample,
    and as many atom rows as the samples have atoms. *)
Theorem collate_pool_contents ds b :
  collate_pool ds = Ok b ->
  Forall all_wf ds ->
  data (out_atom_fea b) = concat (map (fun s => data (atom_fea s)) ds) /\
  data (out_nbr_fea b) = concat (map (fun s => data (nbr_fea s)) ds) /\
  data (out_m2_fea b) = concat (map (fun s => data (m2_feature s)) ds) /\
  data (out_target b) = concat (map (fun s => data (target s)) ds) /\
  hd 0%nat (shape (out_atom_fea b)) = sum_list_with n_atoms ds /\
  hd 0%nat (shape (out_m2_fea b)) = length ds /\
  hd 0%nat (shape (out_target b)) = length ds /\
  out_cif_ids b = map cif_id ds.
Proof.
  intros Hb Hwf.
  destruct (collate_pool_parts ds b Hb) as (H1 & H2 & _ & _ & _ & H6 & H7 & H8).
  apply cat_success in H1 as (_ & _ & Hh1 & Hd1), H2 as (_ & _ & _ & Hd2).
  apply stack_success in H6 as (_ & _ & Hh6 & Hd6 & _),
                         H7 as (_ & _ & Hh7 & Hd7 & _).
  rewrite length_map in Hh6, Hh7. rewrite map_map in Hd6, Hd7.
  destruct Hd1 as [Hd1 _].
  { apply Forall_map. eapply Forall_impl; [exact Hwf|]. by intros s []. }
  destruct Hd2 as [Hd2 _].
  { apply Forall_map. eapply Forall_impl; [exact Hwf|]. by intros s []. }
  rewrite map_map in Hd1, Hd2.
  rewrite (heads_sum atom_fea n_atoms) in Hh1 by done.
  done.
Qed.

(** X5. On tensors of the runtime the collator returns tensors of the
    runtime: every tensor of the batch holds as many entries as its shape
    says. *)
Theorem collate_pool_wf ds b :
  collate_pool ds = Ok b ->
  Forall all_wf ds ->
  wf (out_atom_fea b) /\ wf (out_nbr_fea b) /\ wf (out_nbr_fea_idx b) /\
  wf (out_m1_index b) /\ Forall wf (out_crystal_atom_idx b) /\
  wf (out_m2_fea b) /\ wf (out_target b).
Proof.
  intros Hb Hwf.
  destruct (collate_pool_parts ds b Hb) as (H1 & H2 & H3 & H4 & H5 & H6 & H7 & _).
  apply cat_success in H1 as (_ & _ & _ & H1), H2 as (_ & _ & _ & H2),
        H3 as (_ & _ & _ & H3), H4 as (_ & _ & _ & H4).
  apply stack_success in H6 as (_ & _ & _ & _ & H6), H7 as (_ & _ & _ & _ & H7).
  split; [apply H1, Forall_map; eapply Forall_impl; [exact Hwf|]; by intros s []|].
  split; [apply H2, Forall_map; eapply Forall_impl; [exact Hwf|]; by intros s []|].
  split.
  { apply H3, (Forall_wf_imap nbr_fea_idx).
    eapply Forall_impl; [exact Hwf|]. by intros s []. }
  split.
  { apply H4, (Forall_wf_imap m1_index).
    eapply Forall_impl; [exact Hwf|]. by intros s []. }
  split.
  { rewrite H5. apply Forall_lookup_2. intros k x Hx.
    rewrite list_lookup_imap in Hx. destruct (ds !! k); [|done].
    injection Hx as <-. apply wf_arange_plus. }
  split; [apply H6 | apply H7]; apply Forall_map;
    (eapply Forall_impl; [exact Hwf|]); by intros s [].
Qed.

Lemma tensor_eta {A : Type} (x : Tensor.t A) sh :
  shape x = sh -> mk sh (data x) = x.
Proof. intros <-. by destruct x. Qed.

(** X6. A batch of one sample is that sample: its atom features, neighbor
    features, neighbor indices and primary indices come back as they are,
    the one group counts through the primary index vector from 0, and the
    auxiliary features and the target get a first axis of length one. *)
Theorem collate_pool_single (a M L q T : nat) s :
  shaped a M L q T s ->
  collate_pool [s]
  = Ok (mkBatch
          (atom_fea s) (nbr_fea s) (nbr_fea_idx s) (m1_index s)
          [mk [n_primary s] (map Z.of_nat (seq 0 (n_primary s)))]
          (mk (1%nat :: shape (m2_feature s)) (data (m2_feature s)))
          (mk (1%nat :: shape (target s)) (data (target s)))
          [cif_id s]).
Proof.
  intros Hs. rewrite (collate_pool_shaped a M L q T) by (done || by constructor).
  destruct Hs as [Ha Hn Hi Hm Hq Ht _ _].
  cbn [imap map concat sum_list_with length]. rewrite !app_nil_r, !Nat.add_0_r.
  assert (Hz : forall x : Tensor.t Z,
             data (add_scalar x (Z.of_nat (atom_offset [s] 0))) = data x).
  { intros x. unfold add_scalar. cbn [data].
    change (atom_offset [s] 0) with 0%nat. simpl Z.of_nat.
    rewrite <- (map_id (data x)) at 2. apply map_ext. intros v. lia. }
  rewrite !Hz, Hq, Ht.
  rewrite (tensor_eta (atom_fea s) _ Ha), (tensor_eta (nbr_fea s) _ Hn),
          (tensor_eta (nbr_fea_idx s) _ Hi), (tensor_eta (m1_index s) _ Hm).
  do 2 f_equal. unfold arange_plus. change (group_offset [s] 0) with 0%nat.
  by rewrite seq_shift_of_nat.
Qed.

Lemma m1_start (a M L q T : nat) ds k :
  Forall (shaped a M L q T) ds ->
  sum_list_with (fun s => length (data (m1_index s))) (take k ds)
  = group_offset ds k.
Proof.
  intros Hsh. unfold group_offset.
  assert (Hk : Forall (shaped a M L q T) (take k ds)) by by apply Forall_take.
  induction Hk as [|s l Hs _ IH]; [done|]. simpl. rewrite IH. f_equal.
  pose proof (shaped_m1_wf _ _ _ _ _ _ Hs) as Hwf. unfold wf in Hwf.
  rewrite (shaped_m1 _ _ _ _ _ _ Hs) in Hwf. simpl in Hwf. lia.
Qed.

(** X7. The rows that group [k] of the grouping structure selects on the
    primary-index axis hold indices of atom rows of sample [k]: each lies
    in the range of the flattened atom axis that the atoms of sample [k]
    occupy. *)
Theorem collate_pool_groups_local (a M L q T : nat) ds :
  ds <> [] ->
  Forall (shaped a M L q T) ds ->
  Forall indices_local ds ->
  exists b,
    collate_pool ds = Ok b /\
    forall k s g r,
      ds !! k = Some s ->
      out_crystal_atom_idx b !! k = Some g ->
      r ∈ data g ->
      exists y,
        data (out_m1_index b) !! Z.to_nat r = Some y /\
        Z.of_nat (atom_offset ds k) <= y
        < Z.of_nat (atom_offset ds k) + Z.of_nat (n_atoms s).
Proof.
  intros Hne Hsh Hloc. eexists.
  split; [by apply (collate_pool_shaped a M L q T)|].
  cbn [out_m1_index out_crystal_atom_idx data].
  intros k s g r Hk Hg Hr.
  rewrite list_lookup_imap, Hk in Hg. injection Hg as <-.
  unfold arange_plus in Hr. cbn [data] in Hr.
  change (map ?f ?l) with (f <$> l) in Hr.
  apply list_elem_of_fmap in Hr as (j & -> & Hj).
  apply elem_of_seq in Hj as [_ Hj]. simpl in Hj.
  assert (Hs : shaped a M L q T s).
  { rewrite Forall_forall in Hsh. by eapply Hsh, list_elem_of_lookup_2. }
  assert (Hlen : length (data (m1_index s)) = n_primary s).
  { pose proof (shaped_m1_wf _ _ _ _ _ _ Hs) as Hwf. unfold wf in Hwf.
    rewrite (shaped_m1 _ _ _ _ _ _ Hs) in Hwf. simpl in Hwf. lia. }
  destruct (lookup_lt_is_Some_2 (data (m1_index s)) j) as [x Hx]; [lia|].
  exists (x + Z.of_nat (atom_offset ds k)). split.
  - replace (Z.to_nat (Z.of_nat j + Z.of_nat (group_offset ds k)))
      with (sum_list_with (fun s => length (data (m1_index s))) (take k ds) + j)%nat
      by (rewrite (m1_start a M L q T) by done; lia).
    exact (shifted_lookup m1_index (fun k => Z.of_nat (atom_offset ds k))
             ds k s j x Hk Hx).
  - rewrite Forall_forall in Hloc.
    destruct (Hloc s (list_elem_of_lookup_2 _ _ _ Hk)) as [_ Hm1].
    rewrite Forall_forall in Hm1.
    specialize (Hm1 x (list_elem_of_lookup_2 _ _ _ Hx)). simpl in Hm1. lia.
Qed.

End WithFeatures.

Import Examples.

Lemma two_samples_wf : Forall all_wf two_samples.
Proof. repeat constructor. Qed.

Lemma collate_pool_uniform_witness :
  exists b,
    collate_pool two_samples = Ok b /\
    shape (target five_atoms) = tl (shape (out_target b)).
Proof.
  eexists. split; [reflexivity|].
  refine (proj2 (proj2 (proj2 (proj2 (proj2
    (collate_pool_uniform two_samples _ eq_refl five_atoms _)))))).
  apply list_elem_of_further, list_elem_of_here.
Defined.

(** A sample of three atoms with room for three neighbors per atom. *)
Lemma collate_pool_mismatch_witness :
  exists e,
    collate_pool
      [three_atoms;
       mkSample (atom_fea three_atoms) (nbr_fea three_atoms)
                (mk [3; 3]%nat [1; 2; 0; 0; 2; 0; 0; 1; 0])
                (m1_index three_atoms) (m2_feature three_atoms)
                (target three_atoms) "wide"]
    = Raise e.
Proof.
  destruct (collate_pool_mismatch
    [three_atoms;
     mkSample (atom_fea three_atoms) (nbr_fea three_atoms)
              (mk [3; 3]%nat [1; 2; 0; 0; 2; 0; 0; 1; 0])
              (m1_index three_atoms) (m2_feature three_atoms)
              (target three_atoms) "wide"]
    three_atoms
    (mkSample (atom_fea three_atoms) (nbr_fea three_atoms)
              (mk [3; 3]%nat [1; 2; 0; 0; 2; 0; 0; 1; 0])
              (m1_index three_atoms) (m2_feature three_atoms)
              (target three_atoms) "wide")
    3 3 2 3) as (e & He & _).
  - apply list_elem_of_here.
  - apply list_elem_of_further, list_elem_of_here.
  - reflexivity.
  - reflexivity.
  - discriminate.
  - by exists e.
Defined.

Lemma collate_pool_contents_witness :
  exists b,
    collate_pool two_samples = Ok b /\
    out_cif_ids b = ["three"%string; "five"%string].
Proof.
  eexists. split; [reflexivity|].
  exact (proj2 (proj2 (proj2 (proj2 (proj2 (proj2 (proj2
    (collate_pool_contents two_samples _ eq_refl two_samples_wf)))))))).
Defined.

Lemma collate_pool_wf_witness :
  exists b, collate_pool two_samples = Ok b /\ wf (out_nbr_fea_idx b).
Proof.
  eexists. split; [reflexivity|].
  exact (proj1 (proj2 (proj2
    (collate_pool_wf two_samples _ eq_refl two_samples_wf)))).
Defined.

Lemma collate_pool_single_witness :
  exists b,
    collate_pool [five_atoms] = Ok b /\
    out_nbr_fea_idx b = nbr_fea_idx five_atoms.
Proof.
  eexists. split.
  - apply (collate_pool_single 2 2 1 1 1 five_atoms). repeat constructor.
  - reflexivity.
Defined.

Lemma collate_pool_groups_local_witness :
  exists b,
    collate_pool two_samples = Ok b /\
    forall g r,
      out_crystal_atom_idx b !! 1%nat = Some g -> r ∈ data g ->
      exists y, data (out_m1_index b) !! Z.to_nat r = Some y /\ 3 <= y < 3 + 5.
Proof.
  destruct (collate_pool_groups_local 2 2 1 1 1 two_samples)
    as (b & Hb & Hloc);
    [discriminate | exact two_samples_shaped | exact two_samples_local |].
  exists b. split; [exact Hb|]. intros g r Hg Hr.
  exact (Hloc 1%nat five_atoms g r eq_refl Hg Hr).
Defined.

End CollateProps.

(** ** The Gaussian radial basis: the filter and the weights *)

Module GaussianDistanceProps.

Import GaussianDistance GaussianDistanceFacts.

Local Open Scope R_scope.

Lemma ceil_bounds (x : R) : IZR (ceil x) - 1 < x <= IZR (ceil x).
Proof.
  unfold ceil. rewrite minus_IZR. destruct (archimed (- x)) as [H1 H2]. lra.
Qed.








(** X9. A step below zero whose size does not exceed the span passes
    both assertions and gives a filter without a center: construction
    succeeds, and every expansion has a last axis of length zero and no
    entry. *)
Theorem filter_empty_negative_step (dmin dmax step : R) (var : option R) :
  dmin < dmax ->
  step < 0 ->
  - step <= dmax - dmin ->
  exists g,
    init dmin dmax step var = Ok g /\
    filter g = [] /\
    forall distances,
      expand g distances = Tensor.mk (Tensor.shape distances ++ [0%nat]) [].
Proof.
  intros Hlt Hstep Hspan. rewrite init_valid by lra.
  destruct (Req_dec_T step 0) as [|_]; [lra|]. eexists. split; [reflexivity|].
  assert (Hq : (dmax + step - dmin) / step <= 0).
  { unfold Rdiv. assert (/ step < 0) by by apply Rinv_lt_0_compat. nra. }
  assert (Hn : Z.to_nat (ceil ((dmax + step - dmin) / step)) = 0%nat).
  { destruct (ceil_bounds ((dmax + step - dmin) / step)) as [Hlo _].
    assert (IZR (ceil ((dmax + step - dmin) / step)) < 1) by lra.
    apply lt_IZR in H. lia. }
  cbn [filter]. rewrite Hn. split; [done|].
  intros distances. unfold expand, expand1. cbn [filter map seq length].
  f_equal. induction (Tensor.data distances) as [|d l IH]; [done|]. exact IH.
Qed.

Lemma filter_empty_negative_step_witness :
  exists g, init 0 6 (-1) None = Ok g /\ filter g = [].
Proof.
  destruct (filter_empty_negative_step 0 6 (-1) None) as (g & Hg & Hf & _);
    [lra | lra | lra |].
  by exists g.
Defined.





(** X12. With variance zero the expansion degenerates: the weight of a
    distance is not-a-number at a center and 0 everywhere else. *)
Theorem channel_zero_var (g : t) (d c : R) :
  var g = 0 ->
  channel g c c = NaN /\ (d <> c -> channel g d c = Fin 0).
Proof.
  intros Hv. split; [by apply channel_zero_variance|].
  intros Hdc. unfold channel, np_div. rewrite Hv.
  destruct (Req_dec_T (0 ^ 2) 0) as [_|H]; [|exfalso; apply H; simpl; lra].
  assert (Hneg : - (d - c) ^ 2 < 0).
  { assert (d - c <> 0) by lra. simpl. nra. }
  destruct (Req_dec_T (- (d - c) ^ 2) 0) as [H0|_]; [lra|].
  destruct (Rlt_dec 0 (- (d - c) ^ 2)) as [Hpos|_]; [lra|]. reflexivity.
Qed.

Lemma channel_zero_var_witness :
  channel (mk [0; 1] 0) 1 0 = Fin 0.
Proof.
  apply (proj2 (channel_zero_var (mk [0; 1] 0) 1 0 eq_refl)). lra.
Defined.

Lemma expand_wf (g : t) (distances : Tensor.t R) :
  Tensor.wf distances -> Tensor.wf (expand g distances).
Proof.
  unfold Tensor.wf, expand. cbn [Tensor.shape Tensor.data]. intros Hwf.
  assert (Hn : forall sh L,
             Tensor.numel (sh ++ [L]) = (Tensor.numel sh * L)%nat).
  { intros sh L. induction sh as [|n sh IH]; [simpl; lia|].
    change (Tensor.numel ((n :: sh) ++ [L]))
      with (n * Tensor.numel (sh ++ [L]))%nat.
    change (Tensor.numel (n :: sh)) with (n * Tensor.numel sh)%nat.
    rewrite IH. lia. }
  rewrite Hn, <- Hwf. clear.
  induction (Tensor.data distances) as [|d l IH]; [done|].
  cbn [map concat length]. rewrite length_app, IH. unfold expand1.
  rewrite length_map. lia.
Qed.

Lemma numel_app_last sh L :
  Tensor.numel (sh ++ [L]) = (Tensor.numel sh * L)%nat.
Proof.
  induction sh as [|n sh IH]; [simpl; lia|].
  change (Tensor.numel ((n :: sh) ++ [L]))
    with (n * Tensor.numel (sh ++ [L]))%nat.
  change (Tensor.numel (n :: sh)) with (n * Tensor.numel sh)%nat.
  rewrite IH. lia.
Qed.

(** X13. The expansion puts a new last axis of the length of the filter
    behind the axes of the distances, keeps a tensor of the runtime a
    tensor of the runtime, and lays the weights of distance [i] out as
    the entries [i * len(filter) + k] over the centers [k]. *)
Theorem expand_layout (g : t) (distances : Tensor.t R) :
  Tensor.shape (expand g distances)
  = Tensor.shape distances ++ [length (filter g)] /\
  (Tensor.wf distances -> Tensor.wf (expand g distances)) /\
  forall i d k c,
    Tensor.data distances !! i = Some d ->
    filter g !! k = Some c ->
    Tensor.data (expand g distances) !! (i * length (filter g) + k)%nat
    = Some (channel g d c).
Proof.
  split; [done|].
  assert (Hrows : Forall (fun row => length row = length (filter g))
                    (map (expand1 g) (Tensor.data distances))).
  { apply Forall_map, Forall_forall. intros d _. unfold expand1.
    by rewrite length_map. }
  split.
  - unfold Tensor.wf, expand. cbn [Tensor.shape Tensor.data]. intros Hwf.
    rewrite numel_app_last, <- Hwf. clear.
    induction (Tensor.data distances) as [|d l IH]; [done|].
    cbn [map concat length]. rewrite length_app, IH. unfold expand1.
    rewrite length_map. lia.
  - intros i d k c Hi Hk. unfold expand. cbn [Tensor.data].
    rewrite <- (CIFDataFacts.rows_start _ _ i Hrows).
    + eapply ListFacts.lookup_concat.
      * change (map ?f ?l) with (f <$> l). by rewrite list_lookup_fmap, Hi.
      * unfold expand1. change (map ?f ?l) with (f <$> l).
        by rewrite list_lookup_fmap, Hk.
    + rewrite length_map. apply lookup_lt_Some in Hi. lia.
Qed.

End GaussianDistanceProps.

(** ** The sample builder: construction, outcome and contents *)

Module CIFDataProps.

Import Tensor Collate CIFData ListFacts CIFDataFacts.

(** *** Sorting *)

Lemma insert_by_distance_filter (P : Neighbor -> bool) (d : Q) x l :
  (forall y, P y = true <-> (nn_distance y == d)%Q) ->
  List.filter P (insert_by_distance x l)
  = if P x then x :: List.filter P l else List.filter P l.
Proof.
  intros HP. induction l as [|y r IH]; [done|]. simpl.
  destruct (Qle_bool (nn_distance x) (nn_distance y)) eqn:Hxy; [done|].
  simpl. rewrite IH. destruct (P x) eqn:Hx; [|done].
  destruct (P y) eqn:Hy; [|done]. exfalso.
  apply HP in Hx, Hy.
  assert (Hle : (nn_distance x <= nn_distance y)%Q) by (rewrite Hx, Hy; apply Qle_refl).
  apply Qle_bool_iff in Hle. congruence.
Qed.

(** X14. The sort by distance is stable: neighbors at one and the same
    distance come out in the order they came in; and a list that is
    already ascending comes out as it is. *)
Theorem sorted_stable (nbrs : list Neighbor) :
  (forall d,
     List.filter (fun y => Qeq_bool (nn_distance y) d) (sorted nbrs)
     = List.filter (fun y => Qeq_bool (nn_distance y) d) nbrs) /\
  (ascending nbrs -> sorted nbrs = nbrs).
Proof.
  split.
  - intros d. induction nbrs as [|x r IH]; [done|]. simpl.
    rewrite (insert_by_distance_filter _ d), IH; [done|].
    intros y. apply Qeq_bool_iff.
  - unfold ascending. induction 1 as [|x r Hr IH Hx]; [done|].
    simpl. rewrite IH. destruct r as [|y r']; [done|]. simpl.
    inversion Hx as [|? ? Hxy _]; subst.
    apply Qle_bool_iff in Hxy. by rewrite Hxy.
Qed.

Lemma sorted_stable_witness :
  sorted [mkNeighbor 2 0; mkNeighbor 3 1; mkNeighbor 3 2]
  = [mkNeighbor 2 0; mkNeighbor 3 1; mkNeighbor 3 2].
Proof.
  apply (proj2 (sorted_stable _)). unfold ascending.
  repeat constructor; simpl; unfold Qle; simpl; lia.
Defined.

(** *** The metal scan *)

Lemma scan_metals_lower ss :
  forall base z, z ∈ scan_metals base ss -> Z.of_nat base <= z.
Proof.
  intros base z Hz. apply elem_of_scan_metals in Hz as (i & s & -> & _). lia.
Qed.

Lemma scan_metals_sorted ss :
  forall base, StronglySorted Z.lt (scan_metals base ss).
Proof.
  induction ss as [|s ss IH]; intros base; simpl; [constructor|].
  destruct (is_metal s); [|apply IH]. constructor; [apply IH|].
  apply Forall_forall. intros z Hz. apply scan_metals_lower in Hz. lia.
Qed.

Lemma scan_metals_length ss :
  forall base, (length (scan_metals base ss) <= length ss)%nat.
Proof.
  induction ss as [|s ss IH]; intros base; simpl; [lia|].
  destruct (is_metal s); simpl; specialize (IH (S base)); lia.
Qed.

Lemma metal_index_NoDup crystal : NoDup (metal_index crystal).
Proof.
  unfold metal_index. generalize 0%nat as base.
  induction (sites crystal) as [|s ss IH]; intros base; simpl; [constructor|].
  destruct (is_metal s); [|apply IH]. apply NoDup_cons. split; [|apply IH].
  intros Hz. apply scan_metals_lower in Hz. lia.
Qed.

(** X15. The first loop lists exactly the metal atoms: [metal_index]
    holds the index of an atom if and only if that atom is a metal, in
    strictly increasing order, so no index twice and no more indices than
    atoms. *)
Theorem metal_index_exact (crystal : Structure) :
  (forall z, z ∈ metal_index crystal <->
             exists i, z = Z.of_nat i /\ metal_at crystal i) /\
  StronglySorted Z.lt (metal_index crystal) /\
  NoDup (metal_index crystal) /\
  (length (metal_index crystal) <= length (sites crystal))%nat.
Proof.
  split; [|split; [apply scan_metals_sorted|split;
    [apply metal_index_NoDup|apply scan_metals_length]]].
  intros z. unfold metal_index, metal_at. rewrite elem_of_scan_metals. split.
  - intros (i & s & -> & Hi & Hs). exists i. split; [done|]. by exists s.
  - intros (i & -> & s & Hi & Hs). by exists i, s.
Qed.

(** *** What [__getitem__] does *)



(** *** The sample as an input of the collator *)

Lemma length_concat_rows {A : Type} (rows : list (list A)) M :
  Forall (fun row => length row = M) rows ->
  length (concat rows) = (length rows * M)%nat.
Proof.
  induction 1 as [|row rest Hrow _ IH]; [done|]. simpl.
  rewrite length_app, IH, Hrow. lia.
Qed.

Lemma atom_fea_rows_two crystal :
  Forall (fun row => length row = 2%nat) (atom_fea_rows crystal).
Proof.
  unfold atom_fea_rows. apply Forall_lookup_2. intros i row Hrow.
  rewrite list_lookup_imap in Hrow. destruct (sites crystal !! i); [|done].
  by injection Hrow as <-.
Qed.

Lemma M1_in_range self crystal :
  metal_index crystal <> [] ->
  (forall i x, x ∈ get_neighbors crystal i (metal_radius self) ->
     0 <= nn_index x < Z.of_nat (length (sites crystal))) ->
  Forall (fun z => 0 <= z < Z.of_nat (length (sites crystal)))
    (M1_idx
       (concat (map (fun z =>
          idx_row (metal_max_num_nbr self)
            (sorted (get_neighbors crystal (Z.to_nat z) (metal_radius self))))
          (metal_index crystal)))
       (metal_index crystal)).
Proof.
  intros Hm Hnbr.
  assert (Hmetal : forall z, z ∈ metal_index crystal ->
                     0 <= z < Z.of_nat (length (sites crystal))).
  { intros z Hz. apply elem_of_scan_metals in Hz as (i & s & -> & Hi & _).
    apply lookup_lt_Some in Hi. lia. }
  apply Forall_forall. intros z Hz. apply M1_idx_elem in Hz as [Hz|Hz].
  - apply list_elem_of_In, in_concat in Hz as (row & Hrow & Hz).
    apply list_elem_of_In in Hrow, Hz.
    change (map ?f ?l) with (f <$> l) in Hrow.
    apply list_elem_of_fmap in Hrow as (m & -> & Hmz).
    apply idx_row_elem in Hz as [->|(x & Hx & ->)].
    + specialize (Hmetal m Hmz). lia.
    + apply (Hnbr (Z.to_nat m)). by rewrite <- sorted_perm.
  - by apply Hmetal.
Qed.

Lemma nbr_idx_in_range self crystal :
  sites crystal <> [] ->
  (forall nbrs x,
     nbrs ∈ get_all_neighbors crystal (radius self) -> x ∈ nbrs ->
     0 <= nn_index x < Z.of_nat (length (sites crystal))) ->
  Forall (fun z => 0 <= z < Z.of_nat (length (sites crystal)))
    (concat (nbr_fea_idx_rows self crystal)).
Proof.
  intros Hne Hall. apply Forall_concat, Forall_forall. intros row Hrow.
  unfold nbr_fea_idx_rows, all_nbrs in Hrow. rewrite map_map in Hrow.
  change (map ?f ?l) with (f <$> l) in Hrow.
  apply list_elem_of_fmap in Hrow as (nbrs & -> & Hnbrs).
  apply Forall_forall. intros z Hz.
  apply idx_row_elem in Hz as [->|(x & Hx & ->)].
  - destruct (sites crystal); [done|]. simpl. lia.
  - apply (Hall nbrs); [done|]. by rewrite <- sorted_perm.
Qed.

(** The sample [__getitem__] builds, as an input of the collator. *)
Lemma getitem_sample self cif_id target m2_feature crystal :
  metal_index crystal <> [] ->
  provider_ok self crystal ->
  exists s,
    getitem self cif_id target m2_feature crystal = Ok s /\
    shaped 2 (max_num_nbr self) (length (GaussianDistance.filter (gdf self)))
           (length m2_feature) (length target) s /\
    indices_local s /\
    all_wf s /\
    n_atoms s = length (sites crystal) /\
    Collate.cif_id s = cif_id.
Proof.
  intros Hm [Hlen Hall Hnbr]. eexists. split; [by apply getitem_ok|].
  assert (Hsites : sites crystal <> []) by by apply metal_index_sites.
  assert (Hal : length (atom_fea_rows crystal) = length (sites crystal)).
  { unfold atom_fea_rows. by rewrite length_imap. }
  assert (Ha : of_rows (atom_fea_rows crystal)
               = Tensor.mk [length (sites crystal); 2%nat]
                           (concat (atom_fea_rows crystal))).
  { rewrite (of_rows_shape _ 2), Hal; [done| |apply atom_fea_rows_two].
    intros H. rewrite H in Hal. by destruct (sites crystal). }
  set (M := max_num_nbr self).
  assert (Hi : Forall (fun row => length row = M) (nbr_fea_idx_rows self crystal)).
  { apply Forall_map, Forall_forall. intros. apply idx_row_length. }
  assert (Hd : Forall (fun row => length row = M) (nbr_fea_rows self crystal)).
  { apply Forall_map, Forall_forall. intros. apply dist_row_length. }
  assert (Hil : length (nbr_fea_idx_rows self crystal) = length (sites crystal)).
  { unfold nbr_fea_idx_rows, all_nbrs. by rewrite !length_map. }
  assert (Hdl : length (nbr_fea_rows self crystal) = length (sites crystal)).
  { unfold nbr_fea_rows, all_nbrs. by rewrite !length_map. }
  assert (Hni : of_rows (nbr_fea_idx_rows self crystal)
                = Tensor.mk [length (sites crystal); M]
                            (concat (nbr_fea_idx_rows self crystal))).
  { rewrite (of_rows_shape _ M), Hil; [done| |done].
    intros H. rewrite H in Hil. by destruct (sites crystal). }
  assert (Hnd : of_rows (nbr_fea_rows self crystal)
                = Tensor.mk [length (sites crystal); M]
                            (concat (nbr_fea_rows self crystal))).
  { rewrite (of_rows_shape _ M), Hdl; [done| |done].
    intros H. rewrite H in Hdl. by destruct (sites crystal). }
  rewrite Ha, Hni, Hnd.
  assert (Hwa : length (concat (atom_fea_rows crystal))
                = (length (sites crystal) * 2)%nat).
  { by rewrite (length_concat_rows _ 2), Hal by apply atom_fea_rows_two. }
  assert (Hwi : length (concat (nbr_fea_idx_rows self crystal))
                = (length (sites crystal) * M)%nat).
  { by rewrite (length_concat_rows _ M), Hil. }
  assert (Hwd : length (concat (nbr_fea_rows self crystal))
                = (length (sites crystal) * M)%nat).
  { by rewrite (length_concat_rows _ M), Hdl. }
  assert (Hwfi : wf (Tensor.mk [length (sites crystal); M]
                       (concat (nbr_fea_idx_rows self crystal)))).
  { unfold wf. cbn [shape data]. rewrite Hwi. simpl. lia. }
  assert (Hwfl : forall (A : Type) (l : list A), wf (of_list l)).
  { intros A l. unfold wf, of_list. cbn [shape data]. simpl. lia. }
  split; [|split; [|split; [|split]]].
  - constructor; cbn [atom_fea nbr_fea nbr_fea_idx m1_index Collate.m2_feature
                      Collate.target n_atoms n_primary tmap of_list
                      GaussianDistance.expand shape data hd app];
      rewrite ?length_map; done.
  - split; cbn [nbr_fea_idx m1_index atom_fea n_atoms tmap of_list shape data hd].
    + by apply nbr_idx_in_range.
    + by apply M1_in_range.
  - constructor; cbn [atom_fea nbr_fea nbr_fea_idx m1_index Collate.m2_feature
                      Collate.target]; try apply Hwfl; try done.
    + unfold wf, tmap. cbn [shape data]. rewrite length_map, Hwa. simpl. lia.
    + apply GaussianDistanceProps.expand_wf. unfold wf, tmap. cbn [shape data].
      rewrite length_map, Hwd. simpl. lia.
  - reflexivity.
  - reflexivity.
Qed.

(** X17. Under the promises of the neighbor search, the sample that
    [__getitem__] builds is an input of the collator: atom features
    (n, 2), neighbor features (n, M, len(filter)), neighbor indices
    (n, M) and a primary index vector, all tensors of the runtime, with
    every neighbor index and every primary index an index of one of the
    n atoms of the structure. *)
Theorem getitem_valid_sample self cif_id target m2_feature crystal :
  metal_index crystal <> [] ->
  provider_ok self crystal ->
  exists s,
    getitem self cif_id target m2_feature crystal = Ok s /\
    shaped 2 (max_num_nbr self) (length (GaussianDistance.filter (gdf self)))
           (length m2_feature) (length target) s /\
    indices_local s /\
    all_wf s /\
    n_atoms s = length (sites crystal).
Proof.
  intros Hm Hp.
  destruct (getitem_sample self cif_id target m2_feature crystal Hm Hp)
    as (s & H1 & H2 & H3 & H4 & H5 & _).
  by exists s.
Qed.

(** What makes an entry of the dataset fit for a batch with targets of
    length [T] and [q] auxiliary features. *)
Lemma getitem_entries self (T q : nat) (entries : list Entry) :
  Forall (fun e =>
            length (entry_target e) = T /\ length (entry_m2 e) = q /\
            metal_index (entry_crystal e) <> [] /\
            provider_ok self (entry_crystal e)) entries ->
  exists ss,
    Forall2 (fun e s =>
               getitem self (entry_id e) (entry_target e) (entry_m2 e)
                       (entry_crystal e) = Ok s /\
               n_atoms s = length (sites (entry_crystal e)) /\
               Collate.cif_id s = entry_id e) entries ss /\
    Forall (shaped 2 (max_num_nbr self)
                   (length (GaussianDistance.filter (gdf self))) q T) ss /\
    Forall indices_local ss.
Proof.
  induction 1 as [|e es (HT & Hq & Hm & Hp) _ (ss & H2 & Hsh & Hloc)].
  - exists []. by repeat constructor.
  - destruct (getitem_sample self (entry_id e) (entry_target e) (entry_m2 e)
                (entry_crystal e) Hm Hp) as (s & Hs & Hshs & Hlocs & _ & Hn & Hid).
    rewrite HT, Hq in Hshs. exists (s :: ss).
    split; [by constructor|]. split; by constructor.
Qed.

(** X18. The samples that one dataset object builds for a non-empty list
    of entries, with targets of one length and auxiliary features of one
    length, collate: the collator returns a batch with one atom row per
    atom of the structures, [max_num_nbr] neighbor slots per atom, and the
    identifiers of the entries in order. *)
Theorem dataset_collates self (T q : nat) (entries : list Entry) :
  entries <> [] ->
  Forall (fun e =>
            length (entry_target e) = T /\ length (entry_m2 e) = q /\
            metal_index (entry_crystal e) <> [] /\
            provider_ok self (entry_crystal e)) entries ->
  exists ss b,
    Forall2 (fun e s =>
               getitem self (entry_id e) (entry_target e) (entry_m2 e)
                       (entry_crystal e) = Ok s) entries ss /\
    collate_pool ss = Ok b /\
    shape (out_atom_fea b)
    = [sum_list_with (fun e => length (sites (entry_crystal e))) entries; 2%nat] /\
    shape (out_nbr_fea_idx b)
    = [sum_list_with (fun e => length (sites (entry_crystal e))) entries;
       max_num_nbr self] /\
    shape (out_target b) = [length entries; T] /\
    out_cif_ids b = map entry_id entries.
Proof.
  intros Hne Hall.
  destruct (getitem_entries self T q entries Hall) as (ss & H2 & Hsh & Hloc).
  assert (Hss : ss <> []).
  { intros ->. inversion H2; subst. done. }
  exists ss. eexists. split.
  { eapply Forall2_impl; [exact H2|]. by intros e s (H & _). }
  split; [by eapply CollateFacts.collate_pool_shaped|].
  cbn [out_atom_fea out_nbr_fea_idx out_target out_cif_ids shape].
  assert (Hsum : sum_list_with n_atoms ss
                 = sum_list_with (fun e => length (sites (entry_crystal e))) entries).
  { clear -H2. induction H2 as [|e s es ss (_ & Hn & _) _ IH]; [done|].
    simpl. by rewrite Hn, IH. }
  assert (Hids : map Collate.cif_id ss = map entry_id entries).
  { clear -H2. induction H2 as [|e s es ss (_ & _ & Hid) _ IH]; [done|].
    simpl. by rewrite Hid, IH. }
  rewrite Hsum, Hids, (Forall2_length _ _ _ H2). done.
Qed.

Lemma zinc_between_provider :
  provider_ok Examples.two_slots Examples.zinc_between.
Proof.
  constructor.
  - reflexivity.
  - assert (H : Forall (Forall (fun x => 0 <= nn_index x < 3))
                  (get_all_neighbors Examples.zinc_between
                     (radius Examples.two_slots))).
    { repeat constructor; simpl; lia. }
    intros nbrs x Hn Hx. rewrite Forall_forall in H.
    specialize (H nbrs Hn). rewrite Forall_forall in H. by apply H.
  - intros [|[|i]] x Hx; simpl in Hx; try by apply elem_of_nil in Hx.
    apply elem_of_cons in Hx as [->|Hx]; [simpl; lia|].
    apply list_elem_of_singleton in Hx as ->. simpl. lia.
Qed.

Lemma lone_iron_provider :
  provider_ok Examples.two_slots Examples.lone_iron.
Proof.
  constructor.
  - reflexivity.
  - intros nbrs x Hn Hx. simpl in Hn.
    apply elem_of_cons in Hn as [->|Hn]; [by apply elem_of_nil in Hx|].
    apply list_elem_of_singleton in Hn as ->. by apply elem_of_nil in Hx.
  - intros i x Hx. by apply elem_of_nil in Hx.
Qed.

Lemma getitem_valid_sample_witness :
  exists s,
    getitem Examples.two_slots "zinc" [1%Q] [] Examples.zinc_between = Ok s /\
    n_atoms s = 3%nat.
Proof.
  destruct (getitem_valid_sample Examples.two_slots "zinc" [1%Q] []
              Examples.zinc_between) as (s & Hs & _ & _ & _ & Hn);
    [discriminate | exact zinc_between_provider |].
  by exists s.
Defined.

Lemma dataset_collates_witness :
  exists ss b,
    Forall2 (fun e s =>
               getitem Examples.two_slots (entry_id e) (entry_target e)
                       (entry_m2 e) (entry_crystal e) = Ok s)
            [mkEntry "zinc" [1%Q] [] Examples.zinc_between;
             mkEntry "iron" [2%Q] [] Examples.lone_iron] ss /\
    collate_pool ss = Ok b /\
    shape (out_atom_fea b) = [5%nat; 2%nat].
Proof.
  destruct (dataset_collates Examples.two_slots 1 0
              [mkEntry "zinc" [1%Q] [] Examples.zinc_between;
               mkEntry "iron" [2%Q] [] Examples.lone_iron])
    as (ss & b & H2 & Hb & Hsh & _).
  - discriminate.
  - constructor; [|constructor; [|constructor]].
    + split; [reflexivity|]. split; [reflexivity|]. split; [discriminate|].
      apply zinc_between_provider.
    + split; [reflexivity|]. split; [reflexivity|]. split; [discriminate|].
      apply lone_iron_provider.
  - by exists ss, b.
Defined.

(** *** The primary index vector, entry by entry *)

Lemma idx_row_elem_iff cap nbr z :
  z ∈ idx_row cap nbr <->
  (exists x, x ∈ take cap nbr /\ z = nn_index x) \/
  (z = 0 /\ (length nbr < cap)%nat).
Proof.
  unfold idx_row. destruct (length nbr <? cap)%nat eqn:Hlt.
  - apply Nat.ltb_lt in Hlt. rewrite take_ge by lia.
    rewrite elem_of_app, elem_of_replicate.
    change (map ?f ?l) with (f <$> l). rewrite list_elem_of_fmap.
    split.
    + intros [(x & -> & Hx)|[-> _]]; [left; by exists x | by right].
    + intros [(x & Hx & ->)|[-> _]]; [left; by exists x | right; split; [done|lia]].
  - apply Nat.ltb_ge in Hlt.
    change (map ?f ?l) with (f <$> l). rewrite list_elem_of_fmap.
    split.
    + intros (x & -> & Hx). left. by exists x.
    + intros [(x & Hx & ->)|[_ H]]; [by exists x | lia].
Qed.

(** X19. The primary index vector holds exactly: the indices of the metal
    atoms; for every metal atom the indices of its first
    [metal_max_num_nbr] neighbors by ascending distance; and index 0 as
    soon as one metal atom has fewer than [metal_max_num_nbr] neighbors
    within [metal_radius], whatever atom 0 is. *)
Theorem getitem_primary_members self cif_id target m2_feature crystal :
  metal_index crystal <> [] ->
  exists s,
    getitem self cif_id target m2_feature crystal = Ok s /\
    (forall z,
       z ∈ data (m1_index s) <->
       z ∈ metal_index crystal \/
       exists m,
         m ∈ metal_index crystal /\
         ((exists x,
             x ∈ take (metal_max_num_nbr self)
                   (sorted (get_neighbors crystal (Z.to_nat m) (metal_radius self)))
             /\ z = nn_index x) \/
          (z = 0 /\
           (length (get_neighbors crystal (Z.to_nat m) (metal_radius self))
            < metal_max_num_nbr self)%nat))) /\
    ((exists m,
        m ∈ metal_index crystal /\
        (length (get_neighbors crystal (Z.to_nat m) (metal_radius self))
         < metal_max_num_nbr self)%nat) ->
     0 ∈ data (m1_index s)).
Proof.
  intros Hm. eexists. split; [by apply getitem_ok|].
  cbn [m1_index of_list data].
  assert (Hiff : forall z,
    z ∈ M1_idx
          (concat (map (fun z0 =>
             idx_row (metal_max_num_nbr self)
               (sorted (get_neighbors crystal (Z.to_nat z0) (metal_radius self))))
             (metal_index crystal)))
          (metal_index crystal) <->
    z ∈ metal_index crystal \/
    exists m,
      m ∈ metal_index crystal /\
      ((exists x,
          x ∈ take (metal_max_num_nbr self)
                (sorted (get_neighbors crystal (Z.to_nat m) (metal_radius self)))
          /\ z = nn_index x) \/
       (z = 0 /\
        (length (get_neighbors crystal (Z.to_nat m) (metal_radius self))
         < metal_max_num_nbr self)%nat))).
  { intros z. rewrite M1_idx_elem. split.
    - intros [Hz|Hz]; [|by left]. right.
      apply list_elem_of_In, in_concat in Hz as (row & Hrow & Hz).
      apply list_elem_of_In in Hrow, Hz.
      change (map ?f ?l) with (f <$> l) in Hrow.
      apply list_elem_of_fmap in Hrow as (m & -> & Hmz).
      exists m. split; [done|].
      apply idx_row_elem_iff in Hz. by rewrite sorted_length in Hz.
    - intros [Hz|(m & Hmz & Hz)]; [by right|]. left.
      apply list_elem_of_In, in_concat.
      exists (idx_row (metal_max_num_nbr self)
                (sorted (get_neighbors crystal (Z.to_nat m) (metal_radius self)))).
      split.
      + apply list_elem_of_In. change (map ?f ?l) with (f <$> l).
        apply list_elem_of_fmap. by exists m.
      + apply list_elem_of_In, idx_row_elem_iff. by rewrite sorted_length. }
  split; [exact Hiff|].
  intros (m & Hmz & Hlt). apply Hiff. right. exists m. split; [done|]. by right.
Qed.

Lemma getitem_primary_members_witness :
  exists s,
    getitem Examples.defaults "iron" [1%Q] [] Examples.lone_iron = Ok s /\
    0 ∈ data (m1_index s).
Proof.
  destruct (getitem_primary_members Examples.defaults "iron" [1%Q] []
              Examples.lone_iron) as (s & Hs & _ & H0); [discriminate|].
  exists s. split; [exact Hs|]. apply H0. exists 1. split.
  - apply list_elem_of_here.
  - simpl. lia.
Defined.

(** X20. Under the promises of the neighbor search, the primary index
    vector has at least as many entries as the structure has metal atoms
    and at most as many as it has atoms. *)
Theorem getitem_primary_bounds self cif_id target m2_feature crystal :
  metal_index crystal <> [] ->
  (forall i x, x ∈ get_neighbors crystal i (metal_radius self) ->
     0 <= nn_index x < Z.of_nat (length (sites crystal))) ->
  exists s,
    getitem self cif_id target m2_feature crystal = Ok s /\
    (length (metal_index crystal) <= length (data (m1_index s))
     <= length (sites crystal))%nat.
Proof.
  intros Hm Hnbr. eexists. split; [by apply getitem_ok|].
  cbn [m1_index of_list data]. split.
  - apply submseteq_length, NoDup_submseteq; [apply metal_index_NoDup|].
    intros z Hz. apply M1_idx_elem. by right.
  - rewrite <- (length_seq (length (sites crystal)) 0).
    rewrite <- (length_map Z.of_nat).
    apply submseteq_length, NoDup_submseteq; [apply M1_idx_NoDup|].
    intros z Hz. pose proof (M1_in_range self crystal Hm Hnbr) as Hr.
    rewrite Forall_forall in Hr. specialize (Hr z Hz).
    change (map ?f ?l) with (f <$> l). apply list_elem_of_fmap.
    exists (Z.to_nat z). split; [lia|]. apply elem_of_seq. lia.
Qed.

Lemma getitem_primary_bounds_witness :
  exists s,
    getitem Examples.two_slots "zinc" [1%Q] [] Examples.zinc_between = Ok s /\
    (1 <= length (data (m1_index s)) <= 3)%nat.
Proof.
  destruct (getitem_primary_bounds Examples.two_slots "zinc" [1%Q] []
              Examples.zinc_between) as (s & Hs & Hb);
    [discriminate | apply zinc_between_provider |].
  by exists s.
Defined.

(** *** Atom features and distance rows *)

(** X21. The atom feature matrix of a sample has one row per atom, in the
    order of the structure: the atomic number of the atom, and the number
    of its neighbors within 1.6. *)
Theorem getitem_atom_fea self cif_id target m2_feature crystal :
  metal_index crystal <> [] ->
  exists s,
    getitem self cif_id target m2_feature crystal = Ok s /\
    shape (atom_fea s) = [length (sites crystal); 2%nat] /\
    forall i site,
      sites crystal !! i = Some site ->
      data (atom_fea s) !! (i * 2)%nat = Some (of_Z (number site)) /\
      data (atom_fea s) !! (i * 2 + 1)%nat
      = Some (of_Z (Z.of_nat (length (get_neighbors crystal i (16 # 10))))).
Proof.
  intros Hm. eexists. split; [by apply getitem_ok|]. cbn [atom_fea].
  assert (Hsites : sites crystal <> []) by by apply metal_index_sites.
  assert (Hal : length (atom_fea_rows crystal) = length (sites crystal)).
  { unfold atom_fea_rows. by rewrite length_imap. }
  rewrite (of_rows_shape _ 2), Hal; [| |apply atom_fea_rows_two].
  2: { intros H. rewrite H in Hal. by destruct (sites crystal). }
  cbn [tmap shape data]. split; [done|]. intros i site Hi.
  assert (Hrow : atom_fea_rows crystal !! i
                 = Some [number site;
                         Z.of_nat (length (get_neighbors crystal i (16 # 10)))]).
  { unfold atom_fea_rows. by rewrite list_lookup_imap, Hi. }
  assert (Hstart : sum_list_with (@length Z) (take i (atom_fea_rows crystal))
                   = (i * 2)%nat).
  { apply rows_start; [apply atom_fea_rows_two|].
    apply lookup_lt_Some in Hrow. lia. }
  change (map ?f ?l) with (f <$> l). rewrite !list_lookup_fmap.
  rewrite <- Hstart. split.
  - rewrite <- (Nat.add_0_r (sum_list_with _ _)).
    by rewrite (lookup_concat _ i _ 0%nat (number site) Hrow).
  - by rewrite (lookup_concat _ i _ 1%nat
                  (Z.of_nat (length (get_neighbors crystal i (16 # 10)))) Hrow).
Qed.

Lemma getitem_atom_fea_witness :
  exists s,
    getitem Examples.two_slots "zinc" [1%Q] [] Examples.zinc_between = Ok s /\
    data (atom_fea s) !! 2%nat = Some (of_Z 30) /\
    data (atom_fea s) !! 3%nat = Some (of_Z 2).
Proof.
  destruct (getitem_atom_fea Examples.two_slots "zinc" [1%Q] []
              Examples.zinc_between) as (s & Hs & _ & Hrows); [discriminate|].
  exists s. split; [exact Hs|].
  exact (Hrows 1%nat (mkSite 30 true) eq_refl).
Defined.

Lemma ascending_distances nbrs :
  ascending nbrs -> StronglySorted Qle (map nn_distance nbrs).
Proof.
  unfold ascending. induction 1 as [|x r Hr IH Hx]; simpl; constructor; [done|].
  by apply Forall_map.
Qed.

Lemma StronglySorted_take_Qle (l : list Q) n :
  StronglySorted Qle l -> StronglySorted Qle (take n l).
Proof.
  intros Hl. revert n. induction Hl as [|x r Hr IH Hx]; intros [|n]; simpl;
    try constructor; [apply IH|].
  apply Forall_forall. intros y Hy. rewrite Forall_forall in Hx.
  by eapply Hx, subseteq_take.
Qed.

Lemma StronglySorted_pad (l : list Q) k pad :
  StronglySorted Qle l ->
  Forall (fun d => (d <= pad)%Q) l ->
  StronglySorted Qle (l ++ replicate k pad).
Proof.
  intros Hl Hpad. induction Hl as [|x r Hr IH Hx]; simpl.
  - induction k as [|k IHk]; simpl; constructor; [done|].
    apply Forall_forall. intros y Hy. apply elem_of_replicate in Hy as [-> _].
    apply Qle_refl.
  - inversion Hpad as [|? ? Hxp Hrp]; subst. constructor; [by apply IH|].
    apply Forall_app. split; [done|].
    apply Forall_forall. intros y Hy. by apply elem_of_replicate in Hy as [-> _].
Qed.

(** X22. When the neighbor search returns only atoms within the radius,
    every row of distances that goes into the expansion ascends from slot
    to slot, padding included, has [max_num_nbr] entries, and stays at or
    below [radius + 1]: the padding distance lies above every real
    one. *)
Theorem getitem_distance_rows self cif_id target m2_feature crystal :
  metal_index crystal <> [] ->
  (forall nbrs x,
     nbrs ∈ get_all_neighbors crystal (radius self) -> x ∈ nbrs ->
     (nn_distance x <= radius self)%Q) ->
  exists s,
    getitem self cif_id target m2_feature crystal = Ok s /\
    nbr_fea s
    = GaussianDistance.expand (gdf self)
        (tmap Q2R (of_rows (nbr_fea_rows self crystal))) /\
    forall row,
      row ∈ nbr_fea_rows self crystal ->
      StronglySorted Qle row /\
      length row = max_num_nbr self /\
      Forall (fun d => (d <= radius self + 1)%Q) row.
Proof.
  intros Hm Hwithin. eexists. split; [by apply getitem_ok|].
  split; [done|]. intros row Hrow.
  unfold nbr_fea_rows, all_nbrs in Hrow. rewrite map_map in Hrow.
  change (map ?f ?l) with (f <$> l) in Hrow.
  apply list_elem_of_fmap in Hrow as (nbrs & -> & Hnbrs).
  assert (Hpad : (radius self <= radius self + 1)%Q).
  { rewrite <- (Qplus_0_r (radius self)) at 1.
    apply Qplus_le_r. discriminate. }
  assert (Hle : Forall (fun d => (d <= radius self)%Q)
                  (map nn_distance (sorted nbrs))).
  { apply Forall_map, Forall_forall. intros x Hx.
    apply (Hwithin nbrs); [done|]. by rewrite <- sorted_perm. }
  assert (Hle1 : Forall (fun d => (d <= radius self + 1)%Q)
                   (map nn_distance (sorted nbrs))).
  { eapply Forall_impl; [exact Hle|]. intros d Hd. simpl in *.
    by eapply Qle_trans. }
  pose proof (ascending_distances _ (sorted_ascending nbrs)) as Hasc.
  split; [|split; [apply dist_row_length|]].
  - unfold dist_row. destruct (length (sorted nbrs) <? max_num_nbr self)%nat.
    + by apply StronglySorted_pad.
    + rewrite <- firstn_map. change (firstn ?n ?l) with (take n l).
      by apply StronglySorted_take_Qle.
  - unfold dist_row. destruct (length (sorted nbrs) <? max_num_nbr self)%nat.
    + apply Forall_app. split; [done|]. apply Forall_forall. intros y Hy.
      apply elem_of_replicate in Hy as [-> _]. apply Qle_refl.
    + rewrite <- firstn_map. change (firstn ?n ?l) with (take n l).
      by apply Forall_take.
Qed.

Lemma getitem_distance_rows_witness :
  exists s,
    getitem Examples.two_slots "zinc" [1%Q] [] Examples.zinc_between = Ok s /\
    forall row,
      row ∈ nbr_fea_rows Examples.two_slots Examples.zinc_between ->
      StronglySorted Qle row.
Proof.
  destruct (getitem_distance_rows Examples.two_slots "zinc" [1%Q] []
              Examples.zinc_between) as (s & Hs & _ & Hrows).
  - discriminate.
  - assert (H : Forall (Forall (fun x => (nn_distance x <= 6)%Q))
                  (get_all_neighbors Examples.zinc_between
                     (radius Examples.two_slots))).
    { repeat constructor; simpl; unfold Qle; simpl; lia. }
    intros nbrs x Hn Hx. rewrite Forall_forall in H.
    specialize (H nbrs Hn). rewrite Forall_forall in H. by apply H.
  - exists s. split; [exact Hs|]. intros row Hrow. by apply Hrows.
Defined.

(** *** The constructor and the weight of a padded slot *)

Section Construction.

Local Open Scope R_scope.






End Construction.


End CIFDataProps.
